(** * corsika_span_demo: a shallow embedding of the ParticleSpan demonstrator

    The development follows [span_demo.cpp] (the extended demo with the
    identity tag, position and time fields).  Scalars are IEEE-754 values:
    [float] is binary32, [double] is binary64, both carried by the Standard
    Library's [spec_float] with the operations instantiated at the format's
    precision.  The C++ usual arithmetic conversions are written out: an
    expression mixing [float] and a [double] literal is evaluated in
    [double] and rounded once when it is stored back, while an Eigen array
    of [float] converts a [double] scalar operand to [float] and evaluates
    every coefficient in [float].

    Every operation rounds to nearest, ties to even, and is evaluated in
    the format of its operands, as the language defines it; the
    value-changing optimisations the build enables are not part of the
    source and are not modelled.

    The two logarithms ([std::log] on [double], and the [float] logarithm
    Eigen calls per coefficient) come from the C library; they are the
    members of the class [Libm]. *)

From Stdlib Require Import ZArith Lia Bool.
From Stdlib Require Import Floats.SpecFloat.
From stdpp Require Import base list.

Open Scope Z_scope.

(** ** IEEE-754 scalars *)

Module IEEE.

(** A binary32 or binary64 datum; the format is fixed by the operation
    applied to it. *)
Definition float := spec_float.
Definition double := spec_float.

Section Format.
Variables prec emax : Z.

(** Conversion into the format [(prec, emax)], round to nearest even:
    what a C++ implicit conversion or a store does. *)
Definition conv (x : spec_float) : spec_float :=
  match x with
  | S754_finite s m e => binary_round prec emax s m e
  | _ => x
  end.

Definition of_Z (z : Z) : spec_float := binary_normalize prec emax z 0 false.
End Format.

Definition f_add : float -> float -> float := SFadd 24 128.
Definition f_sub : float -> float -> float := SFsub 24 128.
Definition f_mul : float -> float -> float := SFmul 24 128.
Definition f_div : float -> float -> float := SFdiv 24 128.

Definition d_add : double -> double -> double := SFadd 53 1024.
Definition d_sub : double -> double -> double := SFsub 53 1024.
Definition d_mul : double -> double -> double := SFmul 53 1024.
Definition d_div : double -> double -> double := SFdiv 53 1024.

(** [float] to [double] promotion (exact on binary32 data) and the
    rounding [double] to [float] conversion of a store. *)
Definition to_double : float -> double := conv 53 1024.
Definition to_float : double -> float := conv 24 128.

(** The literals of the source. *)
Definition d_one : double := S754_finite false 4503599627370496 (-52).
Definition d_zero : double := S754_zero false.
Definition f_one : float := S754_finite false 8388608 (-23).
Definition f_zero : float := S754_zero false.

(** [0.1] as the compiler reads it: the binary64 nearest to one tenth. *)
Definition d_tenth : double := S754_finite false 7205759403792794 (-56).

(** [bool] to [double] and [bool] to [float]: [true] is one, [false] zero. *)
Definition d_of_bool (b : bool) : double := if b then d_one else d_zero.
Definition f_of_bool (b : bool) : float := if b then f_one else f_zero.

Definition is_finite (x : spec_float) : bool :=
  match x with
  | S754_zero _ | S754_finite _ _ _ => true
  | S754_infinity _ | S754_nan => false
  end.

(** A strictly positive finite number: the arguments on which the real
    logarithm is defined. *)
Definition pos_finite (x : spec_float) : bool :=
  match x with S754_finite false _ _ => true | _ => false end.

(** The value of a finite datum as an integer multiple of [2^ez], for
    [ez] at most its exponent. *)
Definition scaled (ez : Z) (x : spec_float) : Z :=
  match x with
  | S754_finite s m e => cond_Zopp s (Zpos (fst (shl_align m e ez)))
  | _ => 0
  end.

Definition exponent (x : spec_float) : Z :=
  match x with S754_finite _ _ e => e | _ => 0 end.

(** [1 <= x] on the values: exact, whatever the representation of [x].
    [one] is the format's representation of 1. *)
Definition ge_one (one x : spec_float) : bool :=
  match x with
  | S754_infinity false => true
  | S754_finite false _ e =>
      let ez := Z.min (exponent one) e in scaled ez one <=? scaled ez x
  | _ => false
  end.

(** [x <= 0]: the comparison of the format, exact against a zero. *)
Definition le_zero (x : spec_float) : bool := SFleb x (S754_zero false).

(** Relative closeness [|a - b| <= 1e-6 * max |a| |b|] of two finite data,
    computed exactly on aligned mantissas; data that are not both finite
    are close only when equal. *)
Definition rel_close (a b : spec_float) : bool :=
  if is_finite a && is_finite b then
    let ez := Z.min (exponent a) (exponent b) in
    let za := scaled ez a in
    let zb := scaled ez b in
    1000000 * Z.abs (za - zb) <=? Z.max (Z.abs za) (Z.abs zb)
  else
    match a, b with
    | S754_nan, S754_nan => true
    | S754_infinity s, S754_infinity s' => Bool.eqb s s'
    | _, _ => false
    end.

End IEEE.
Export IEEE.

(** ** The C library's logarithms *)

Class Libm := {
  std_log : double -> double;   (* std::log(double) *)
  std_logf : float -> float     (* std::log(float), Eigen's coefficient-wise log *)
}.

(** Annex F.10.3.7 of the C standard for a logarithm [lg]: [log(+-0)] is minus infinity,
    [log(x)] is a NaN for [x < 0], [log(+inf)] is plus infinity, and a NaN
    argument gives a NaN. *)
Record annex_F_log (lg : spec_float -> spec_float) : Prop := {
  log_zero : forall s, lg (S754_zero s) = S754_infinity true;
  log_neg : forall m e, lg (S754_finite true m e) = S754_nan;
  log_minus_inf : lg (S754_infinity true) = S754_nan;
  log_plus_inf : lg (S754_infinity false) = S754_infinity false;
  log_nan : lg S754_nan = S754_nan
}.

Definition annex_F (L : Libm) : Prop :=
  annex_F_log (@std_log L) /\ annex_F_log (@std_logf L).

(** ** The record *)

(** [struct Particle]: an [int32_t] identity tag and eight [float]s.  The
    tag is kept as the integer it denotes: the program stores -1, 0 and 1
    and compares the tag with 0. *)
Record Particle := mkParticle {
  pid_ : Z;
  px_ : float; py_ : float; pz_ : float; e_ : float;
  x_ : float; y_ : float; z_ : float; t_ : float
}.

Definition set_pid (v : Z) (p : Particle) : Particle :=
  mkParticle v (px_ p) (py_ p) (pz_ p) (e_ p) (x_ p) (y_ p) (z_ p) (t_ p).
Definition set_e (v : float) (p : Particle) : Particle :=
  mkParticle (pid_ p) (px_ p) (py_ p) (pz_ p) v (x_ p) (y_ p) (z_ p) (t_ p).
Definition set_x (v : float) (p : Particle) : Particle :=
  mkParticle (pid_ p) (px_ p) (py_ p) (pz_ p) (e_ p) v (y_ p) (z_ p) (t_ p).
Definition set_y (v : float) (p : Particle) : Particle :=
  mkParticle (pid_ p) (px_ p) (py_ p) (pz_ p) (e_ p) (x_ p) v (z_ p) (t_ p).
Definition set_z (v : float) (p : Particle) : Particle :=
  mkParticle (pid_ p) (px_ p) (py_ p) (pz_ p) (e_ p) (x_ p) (y_ p) v (t_ p).
Definition set_t (v : float) (p : Particle) : Particle :=
  mkParticle (pid_ p) (px_ p) (py_ p) (pz_ p) (e_ p) (x_ p) (y_ p) (z_ p) v.

(** A value-initialised record, as [std::vector<Particle>(n)] creates it. *)
Definition Particle_zero : Particle :=
  mkParticle 0 f_zero f_zero f_zero f_zero f_zero f_zero f_zero f_zero.

(** ** Operations on one record *)

Module Scalar.

(** [sqr] at [float]. *)
Definition sqr (x : float) : float := f_mul x x.

(** [momentum_squared(Particle&)]. *)
Definition momentum_squared (part : Particle) : float :=
  f_add (f_add (sqr (px_ part)) (sqr (py_ part))) (sqr (pz_ part)).

(** [charge(T&)] at [Particle]: the comparison itself, a [bool]. *)
Definition charge (part : Particle) : bool := negb (pid_ part =? 0).

(** [beta_2], a [float] in both scalar bodies. *)
Definition beta_2 (part : Particle) : float :=
  f_div (momentum_squared part) (sqr (e_ part)).

Section WithLibm.
Context {L : Libm}.

(** [log(beta_2 / (1.0 - beta_2)) / beta_2 - 1.0] with [beta_2] promoted
    to [double] by the literal [1.0]. *)
Definition loss_term (b : float) : double :=
  let b' := to_double b in
  d_sub (d_div (std_log (d_div b' (d_sub d_one b'))) b') d_one.

(** The overload [energy_loss(Particle&)]: it branches on the charge. *)
Definition energy_loss (part : Particle) : Particle :=
  let b := beta_2 part in
  let c := charge part in
  if c then
    let energy_loss := d_mul (d_of_bool c) (loss_term b) in
    set_e (to_float (d_sub (to_double (e_ part)) energy_loss)) part
  else part.

(** The template [energy_loss<T>] instantiated at [T = Particle]: the
    charge multiplies the loss term. *)
Definition energy_loss_generic (part : Particle) : Particle :=
  let b := beta_2 part in
  let energy_loss := d_mul (d_of_bool (charge part)) (loss_term b) in
  set_e (to_float (d_sub (to_double (e_ part)) energy_loss)) part.
End WithLibm.

(** [move_particle<Particle>]: [dt] is the [double] 0.1, so each update is
    computed in [double] and rounded by the store. *)
Definition move_particle (p : Particle) : Particle :=
  let dt := d_tenth in
  let p1 := set_x (to_float (d_add (to_double (x_ p)) (d_mul (to_double (px_ p)) dt))) p in
  let p2 := set_y (to_float (d_add (to_double (y_ p1)) (d_mul (to_double (py_ p1)) dt))) p1 in
  let p3 := set_z (to_float (d_add (to_double (z_ p2)) (d_mul (to_double (pz_ p2)) dt))) p2 in
  set_t (to_float (d_add (to_double (t_ p3)) dt)) p3.

End Scalar.

(** ** Storage and the batch accessor *)

(** [class ParticleSpan]: two [Particle*] into the storage, kept here as
    record indices counted from [stack.data()]. *)
Record ParticleSpan := mkSpan { begin_ : nat; end_ : nat }.

(** [size()]: the pointer difference [end_ - begin_]. *)
Definition size (sp : ParticleSpan) : nat := (end_ sp - begin_ sp)%nat.

(** The constructor's contract: an ordered range inside the storage. *)
Definition span_ok (sp : ParticleSpan) (stack : list Particle) : Prop :=
  (begin_ sp <= end_ sp <= length stack)%nat.

(** What a function taking [ParticleSpan&] can reach: the accessor itself
    and the storage it points into. *)
Record World := mkWorld { stack : list Particle; span : ParticleSpan }.

(** The records the accessor ranges over, in index order.  A range that
    leaves the storage is outside the constructor's contract (the source
    then reads and writes out of bounds); here it ranges over the records
    that exist. *)
Definition records (sp : ParticleSpan) (st : list Particle) : list Particle :=
  take (size sp) (drop (begin_ sp) st).

(** A field view [ArrayView<T>(&begin_->f, size())] read as a whole:
    coefficient [k] is field [f] of record [begin_ + k]. *)
Definition view {A} (get : Particle -> A) (w : World) : list A :=
  get <$> records (span w) (stack w).

(** Assignment through a field view: coefficient [k] of [vals] is stored
    into field [f] of record [begin_ + k]; nothing else is written. *)
Definition assign {A} (set : A -> Particle -> Particle) (vals : list A) (w : World) : World :=
  let sp := span w in
  let st := stack w in
  mkWorld (take (begin_ sp) st ++ zip_with set vals (records sp st)
             ++ drop (begin_ sp + size sp) st)
          sp.

(** [for (auto&& p : span) f(p);]: the iterator runs from [begin_] to
    [end_], one record at a time. *)
Fixpoint for_range (f : Particle -> Particle) (it n : nat) (st : list Particle)
  : list Particle :=
  match n with
  | O => st
  | S n' => for_range f (S it) n' (alter f it st)
  end.

Definition for_each (f : Particle -> Particle) (w : World) : World :=
  mkWorld (for_range f (begin_ (span w)) (size (span w)) (stack w)) (span w).

(** ** Eigen's coefficient-wise array expressions *)

Module Eigen.

Definition ArrayF := list float.
Definition ArrayI := list Z.

Definition add (a b : ArrayF) : ArrayF := zip_with f_add a b.
Definition sub (a b : ArrayF) : ArrayF := zip_with f_sub a b.
Definition mul (a b : ArrayF) : ArrayF := zip_with f_mul a b.
Definition div (a b : ArrayF) : ArrayF := zip_with f_div a b.

(** An operand of another arithmetic type is converted to the array's
    scalar type before the coefficient-wise operation. *)
Definition scalar_sub (c : double) (a : ArrayF) : ArrayF := f_sub (to_float c) <$> a.
Definition sub_scalar (a : ArrayF) (c : double) : ArrayF :=
  (fun v => f_sub v (to_float c)) <$> a.
Definition mul_scalar (a : ArrayF) (c : double) : ArrayF :=
  (fun v => f_mul v (to_float c)) <$> a.
Definition add_scalar (a : ArrayF) (c : double) : ArrayF :=
  (fun v => f_add v (to_float c)) <$> a.

Definition log {L : Libm} (a : ArrayF) : ArrayF := std_logf <$> a.

(** [a != c] and [.cast<float>()]. *)
Definition ne_scalar (a : ArrayI) (c : Z) : list bool := (fun i => negb (i =? c)) <$> a.
Definition cast_float (m : list bool) : ArrayF := f_of_bool <$> m.

End Eigen.

(** ** Operations on a span *)

Module Batch.

Definition sqr (a : Eigen.ArrayF) : Eigen.ArrayF := Eigen.mul a a.

(** [momentum_squared(ParticleSpan&)]. *)
Definition momentum_squared (part : World) : Eigen.ArrayF :=
  Eigen.add (Eigen.add (sqr (view px_ part)) (sqr (view py_ part)))
            (sqr (view pz_ part)).

(** The overload [charge(ParticleSpan&)]: the mask cast to [float]. *)
Definition charge (part : World) : Eigen.ArrayF :=
  Eigen.cast_float (Eigen.ne_scalar (view pid_ part) 0).

Section WithLibm.
Context {L : Libm}.

(** The template [energy_loss<T>] at [T = ParticleSpan].  The
    expression is evaluated coefficient by coefficient while it is
    assigned; coefficient [k] reads record [begin_ + k] only, so reading
    all the views before the store gives the same result. *)
Definition energy_loss (part : World) : World :=
  let beta_2 := Eigen.div (momentum_squared part) (sqr (view e_ part)) in
  let energy_loss :=
    Eigen.mul (charge part)
      (Eigen.sub_scalar
         (Eigen.div (Eigen.log (Eigen.div beta_2 (Eigen.scalar_sub d_one beta_2)))
                    beta_2)
         d_one) in
  assign set_e (Eigen.sub (view e_ part) energy_loss) part.
End WithLibm.

(** The template [move_particle<T>] at [T = ParticleSpan]. *)
Definition move_particle (p : World) : World :=
  let dt := d_tenth in
  let p1 := assign set_x (Eigen.add (view x_ p) (Eigen.mul_scalar (view px_ p) dt)) p in
  let p2 := assign set_y (Eigen.add (view y_ p1) (Eigen.mul_scalar (view py_ p1) dt)) p1 in
  let p3 := assign set_z (Eigen.add (view z_ p2) (Eigen.mul_scalar (view pz_ p2) dt)) p2 in
  assign set_t (Eigen.add_scalar (view t_ p3) dt) p3.

End Batch.

(** ** The generic bodies read on one coefficient

    What one coefficient of the span instantiation computes: the body of
    the template with every operation in [float] and the charge as a
    [float] factor.  These are not functions of the source; the theorems
    below relate the span operations to them. *)

Module Lane.

Section WithLibm.
Context {L : Libm}.

Definition loss_term (b : float) : float :=
  f_sub (f_div (std_logf (f_div b (f_sub (to_float d_one) b))) b) (to_float d_one).

Definition energy_loss (p : Particle) : Particle :=
  set_e (f_sub (e_ p)
               (f_mul (f_of_bool (Scalar.charge p))
                      (loss_term (Scalar.beta_2 p)))) p.
End WithLibm.

Definition move_particle (p : Particle) : Particle :=
  let dt := to_float d_tenth in
  mkParticle (pid_ p) (px_ p) (py_ p) (pz_ p) (e_ p)
    (f_add (x_ p) (f_mul (px_ p) dt))
    (f_add (y_ p) (f_mul (py_ p) dt))
    (f_add (z_ p) (f_mul (pz_ p) dt))
    (f_add (t_ p) dt).

End Lane.

(** ** Processes and process lists *)

Inductive ProcessVariant :=
| ContinuousEnergyLoss
| ContinuousEnergyLossNoEigen
| MoveParticle
| MoveParticleNoEigen.

Definition ProcessList := list ProcessVariant.

Section Dispatch.
Context {L : Libm}.

(** [visit([&span](auto& proc) { proc(span); }, process)]. *)
Definition visit (process : ProcessVariant) (w : World) : World :=
  match process with
  | ContinuousEnergyLoss => Batch.energy_loss w
  | ContinuousEnergyLossNoEigen => for_each Scalar.energy_loss w
  | MoveParticle => Batch.move_particle w
  | MoveParticleNoEigen => for_each Scalar.move_particle w
  end.

(** [for (const auto& process : process_list) visit(..., process);]. *)
Definition run_list (process_list : ProcessList) (w : World) : World :=
  fold_left (fun w' process => visit process w') process_list w.

(** One benchmark iteration of [variant_process_span]. *)
Definition variant_process_span (w : World) : World :=
  run_list [ContinuousEnergyLoss; MoveParticle] w.

(** One benchmark iteration of [variant_process_span_no_eigen]. *)
Definition variant_process_span_no_eigen (w : World) : World :=
  run_list [ContinuousEnergyLossNoEigen; MoveParticleNoEigen] w.

(** One benchmark iteration of [process_one]. *)
Definition process_one (w : World) : World :=
  for_each (fun p => Scalar.move_particle (Scalar.energy_loss p)) w.

(** One benchmark iteration of [process_span]. *)
Definition process_span (w : World) : World :=
  Batch.move_particle (Batch.energy_loss w).

(** One benchmark iteration of [process_span_no_eigen]: the same loop as
    [process_one]. *)
Definition process_span_no_eigen (w : World) : World := process_one w.

(** One benchmark iteration of [variant_process_one]: the list is applied
    to the whole span once for each record of the span. *)
Definition variant_process_one (w : World) : World :=
  Nat.iter (size (span w)) (run_list [ContinuousEnergyLoss; MoveParticle]) w.
End Dispatch.

(** ** Populating the storage *)

(** The loop of [setup_stack]: [i] is incremented before it is used.  It
    counts to 100000, far below the range of [int]; [%] on a positive [int]
    is [Z.rem]. *)
Fixpoint setup_loop (i : Z) (st : list Particle) : list Particle :=
  match st with
  | [] => []
  | part :: rest =>
      let i' := i + 1 in
      set_pid (Z.rem i' 3 - 1) part :: setup_loop i' rest
  end.

Definition stack_size : nat := Z.to_nat 100000.

Definition setup_stack_n (n : nat) : list Particle :=
  setup_loop 0 (replicate n Particle_zero).

Definition setup_stack : list Particle := setup_stack_n stack_size.

(** [ParticleSpan span(stack.data(), stack.data() + n)] over a fresh stack. *)
Definition setup_world (n : nat) : World := mkWorld setup_stack (mkSpan 0 n).


(** ** The layout: an array of structures read through strided views *)

Module Layout.

(** A four-byte cell of the buffer, with the type it was written at. *)
Inductive scalar := I32 (i : Z) | F32 (f : float).

Definition sizeof_float : nat := 4.
Definition sizeof_Particle : nat := 36.

(** [InnerStride<(sizeof(Particle) / sizeof(float))>]. *)
Definition stride : nat := Nat.div sizeof_Particle sizeof_float.

(** The members of [Particle], in declaration order. *)
Inductive field := pid | px | py | pz | e | x | y | z | t.

(** The position of a member inside the record, in cells. *)
Definition offset (f : field) : nat :=
  match f with
  | pid => 0 | px => 1 | py => 2 | pz => 3 | e => 4
  | x => 5 | y => 6 | z => 7 | t => 8
  end%nat.

(** The member [f] of a record, and the record with [f] replaced; a value
    of the other scalar type is not stored. *)
Definition get (f : field) (p : Particle) : scalar :=
  match f with
  | pid => I32 (pid_ p)
  | px => F32 (px_ p) | py => F32 (py_ p) | pz => F32 (pz_ p) | e => F32 (e_ p)
  | x => F32 (x_ p) | y => F32 (y_ p) | z => F32 (z_ p) | t => F32 (t_ p)
  end.

Definition put (f : field) (v : scalar) (p : Particle) : Particle :=
  match f, v with
  | pid, I32 i => set_pid i p
  | px, F32 a => mkParticle (pid_ p) a (py_ p) (pz_ p) (e_ p) (x_ p) (y_ p) (z_ p) (t_ p)
  | py, F32 a => mkParticle (pid_ p) (px_ p) a (pz_ p) (e_ p) (x_ p) (y_ p) (z_ p) (t_ p)
  | pz, F32 a => mkParticle (pid_ p) (px_ p) (py_ p) a (e_ p) (x_ p) (y_ p) (z_ p) (t_ p)
  | e, F32 a => set_e a p
  | x, F32 a => set_x a p
  | y, F32 a => set_y a p
  | z, F32 a => set_z a p
  | t, F32 a => set_t a p
  | _, _ => p
  end.

(** The scalar type of a member's view: [ArrayIView] for [pid],
    [ArrayFView] for the others. *)
Definition well_typed (f : field) (v : scalar) : bool :=
  match f, v with
  | pid, I32 _ => true
  | pid, F32 _ => false
  | _, F32 _ => true
  | _, I32 _ => false
  end.

Abbreviation Memory := (list scalar).

(** The cells of one record. *)
Definition cells (p : Particle) : list scalar :=
  [I32 (pid_ p); F32 (px_ p); F32 (py_ p); F32 (pz_ p); F32 (e_ p);
   F32 (x_ p); F32 (y_ p); F32 (z_ p); F32 (t_ p)].

(** The contiguous buffer of a [std::vector<Particle>]. *)
Fixpoint buffer (st : list Particle) : Memory :=
  match st with
  | [] => []
  | p :: rest => cells p ++ buffer rest
  end.

(** The per-record accessor [p->f()] of the record at pointer [p]. *)
Definition member (mem : Memory) (p : nat) (f : field) : option scalar :=
  mem !! (stride * p + offset f)%nat.

(** [Eigen::Map] with inner stride [stride]: a first cell and a length. *)
Record ArrayView := mkView { data : nat; len : nat }.

(** [ParticleSpan::f()], that is [ArrayView(&begin_->f_, size())]. *)
Definition span_view (sp : ParticleSpan) (f : field) : ArrayView :=
  mkView (stride * begin_ sp + offset f)%nat (size sp).

(** Coefficient [k] of a view, read and written in place.  The source does
    not check bounds; a cell outside the buffer has no value here, and a
    store to it changes nothing. *)
Definition coeff (mem : Memory) (v : ArrayView) (k : nat) : option scalar :=
  mem !! (data v + stride * k)%nat.

Definition coeff_write (mem : Memory) (v : ArrayView) (k : nat) (val : scalar) : Memory :=
  <[(data v + stride * k)%nat := val]> mem.

End Layout.

(** ** Relations between records and data *)

(** Equal on every field but the energy. *)
Definition same_but_e (p q : Particle) : Prop :=
  pid_ q = pid_ p /\ px_ q = px_ p /\ py_ q = py_ p /\ pz_ q = pz_ p /\
  x_ q = x_ p /\ y_ q = y_ p /\ z_ q = z_ p /\ t_ q = t_ p.

(** Equal on the tag, the momentum and the energy. *)
Definition same_but_position (p q : Particle) : Prop :=
  pid_ q = pid_ p /\ px_ q = px_ p /\ py_ q = py_ p /\ pz_ q = pz_ p /\ e_ q = e_ p.

(** Two [float]s that are identical or within the relative tolerance. *)
Definition field_agree (a b : float) : Prop := a = b \/ rel_close a b = true.

(** Two records whose tags are equal and whose [float] fields agree. *)
Definition particle_agree (p q : Particle) : Prop :=
  pid_ p = pid_ q /\
  field_agree (px_ p) (px_ q) /\ field_agree (py_ p) (py_ q) /\
  field_agree (pz_ p) (pz_ q) /\ field_agree (e_ p) (e_ q) /\
  field_agree (x_ p) (x_ q) /\ field_agree (y_ p) (y_ q) /\
  field_agree (z_ p) (z_ q) /\ field_agree (t_ p) (t_ q).

(** A well-formed binary32 datum. *)
Definition valid_float (v : float) : Prop := valid_binary 24 128 v = true.

(** [beta_2] is exactly 0 or exactly 1. *)
Definition zero_or_one (b : float) : Prop :=
  b = S754_zero false \/ b = S754_zero true \/ b = f_one.

(** A datum that is a NaN or carries the sign [s]. *)
Definition signed (s : bool) (v : spec_float) : Prop :=
  match v with
  | S754_zero s' | S754_infinity s' | S754_finite s' _ _ => s' = s
  | S754_nan => True
  end.

(** What a process does to one record of the span it is applied to. *)
Definition record_step {L : Libm} (process : ProcessVariant) : Particle -> Particle :=
  match process with
  | ContinuousEnergyLoss => Lane.energy_loss
  | ContinuousEnergyLossNoEigen => Scalar.energy_loss
  | MoveParticle => Lane.move_particle
  | MoveParticleNoEigen => Scalar.move_particle
  end.

(** The tag the population rule gives the record at position [k]. *)
Definition tag_at (k : nat) : Z := Z.rem (Z.of_nat k + 1) 3 - 1.

(** The tags of the first records of a fresh stack. *)
Definition first_tags (n : nat) : list Z := pid_ <$> take n setup_stack.

(** ** The formula of the energy loss, as the specification words it *)

(** [beta_2 = (px^2 + py^2 + pz^2) / e^2], in [float]. *)
Definition formula_beta_2 (p : Particle) : float :=
  f_div (f_add (f_add (f_mul (px_ p) (px_ p)) (f_mul (py_ p) (py_ p)))
               (f_mul (pz_ p) (pz_ p)))
        (f_mul (e_ p) (e_ p)).

(** [delta = charge * (log(beta_2 / (1 - beta_2)) / beta_2 - 1)], in
    [double]. *)
Definition formula_delta {L : Libm} (charge : double) (p : Particle) : double :=
  let b := to_double (formula_beta_2 p) in
  d_mul charge (d_sub (d_div (std_log (d_div b (d_sub d_one b))) b) d_one).

(** ** Data of the examples *)

(** A logarithm that is as Annex F says on zeros, negative numbers,
    infinities and NaN, and is [+0] on every positive finite argument: it
    shows that the hypotheses on the C library can be met, and stands for
    no particular implementation. *)
Definition special_values_log (v : spec_float) : spec_float :=
  match v with
  | S754_zero _ => S754_infinity true
  | S754_finite true _ _ => S754_nan
  | S754_infinity true => S754_nan
  | S754_infinity false => S754_infinity false
  | S754_nan => S754_nan
  | S754_finite false _ _ => S754_zero false
  end.

Definition special_values_libm : Libm :=
  {| std_log := special_values_log; std_logf := special_values_log |}.

(** A span over the whole storage, as
    [ParticleSpan(v.data(), v.data() + v.size())]. *)
Definition whole (st : list Particle) : World := mkWorld st (mkSpan 0 (length st)).

(** A record with integer field values: tag, momentum, energy, position,
    time. *)
Definition particle (tag : Z) (ppx ppy ppz ee xx yy zz tt : Z) : Particle :=
  mkParticle tag (of_Z 24 128 ppx) (of_Z 24 128 ppy) (of_Z 24 128 ppz)
             (of_Z 24 128 ee) (of_Z 24 128 xx) (of_Z 24 128 yy)
             (of_Z 24 128 zz) (of_Z 24 128 tt).

(** [-0.1f]. *)
Definition f_minus_tenth : float := SFopp (to_float d_tenth).

(** A charged record at [x = -0.1f] with [px = 1] and [e = 2]. *)
Definition p_cancel : Particle :=
  set_x f_minus_tenth (particle 1 1 0 0 2 0 0 0 0).

(** A neutral record at the origin with [px = 9], all else zero. *)
Definition p_nine : Particle := particle 0 9 0 0 0 0 0 0 0.

(** A neutral record with [px = 2] and [e = 1]: [beta_2] is 4. *)
Definition p_fast : Particle := particle 0 2 0 0 1 0 0 0 0.

(** A charged record with [px = 2] and [e = 1]: [beta_2] is 4. *)
Definition p_fast_charged : Particle := particle 1 2 0 0 1 0 0 0 0.

(** A neutral record with [px = 1] and [e = 2]: [beta_2] is 1/4. *)
Definition p_slow : Particle := particle 0 1 0 0 2 0 0 0 0.

(** ** Relations used for the properties beyond the claims *)

(** Equal on the tag and the momentum. *)
Definition same_tag_momentum (p q : Particle) : Prop :=
  pid_ q = pid_ p /\ px_ q = px_ p /\ py_ q = py_ p /\ pz_ q = pz_ p.

(** A NaN energy stays a NaN. *)
Definition nan_energy_kept (p q : Particle) : Prop :=
  e_ p = S754_nan -> e_ q = S754_nan.

(** Position [k] of the storage is inside the range of the accessor. *)
Definition in_span (sp : ParticleSpan) (k : nat) : Prop :=
  (begin_ sp <= k < begin_ sp + size sp)%nat.

(** The number of neutral tags in a list of tags. *)
Definition neutral_count (tags : list Z) : nat := count_occ Z.eq_dec tags 0.



(** ** The first demo, [span_demo.cpp]

    The record holds four [float]s, a span always covers a whole vector,
    and [do_energy_loss] knows no charge.  [sqr], the array operations and
    the two readings of the loss term are those of the extended demo. *)

Module Simple.

(** [struct Particle]. *)
Record Particle := mkParticle { px_ : float; py_ : float; pz_ : float; e_ : float }.

Definition set_e (v : float) (p : Particle) : Particle :=
  mkParticle (px_ p) (py_ p) (pz_ p) v.

(** A value-initialised record, as [std::vector<Particle>(n)] creates it. *)
Definition Particle_zero : Particle := mkParticle f_zero f_zero f_zero f_zero.

(** The vector and a span into it. *)
Record World := mkWorld { stack : list Particle; span : ParticleSpan }.

(** [ParticleSpan span(v)]: [begin_ = v.data()], [end_ = v.data() + v.size()]. *)
Definition make_span (v : list Particle) : World := mkWorld v (mkSpan 0 (length v)).

Definition records (w : World) : list Particle :=
  take (size (span w)) (drop (begin_ (span w)) (stack w)).

(** The accessors [px()], [py()], [pz()], [e()] of the span: views with
    the stride [sizeof(Particle) / sizeof(float)], one coefficient for
    each record. *)
Definition view (get : Particle -> float) (w : World) : Eigen.ArrayF :=
  get <$> records w.

(** Assignment through the view [e()]. *)
Definition assign_e (vals : Eigen.ArrayF) (w : World) : World :=
  let sp := span w in
  let st := stack w in
  mkWorld (take (begin_ sp) st ++ zip_with set_e vals (records w)
             ++ drop (begin_ sp + size sp) st)
          sp.

(** [for (auto&& p : span) f(p);]. *)
Fixpoint for_range (f : Particle -> Particle) (it n : nat) (st : list Particle)
  : list Particle :=
  match n with
  | O => st
  | S n' => for_range f (S it) n' (alter f it st)
  end.

Definition for_each (f : Particle -> Particle) (w : World) : World :=
  mkWorld (for_range f (begin_ (span w)) (size (span w)) (stack w)) (span w).

(** [momentum_squared] at [Particle] and at [ParticleSpan]. *)
Definition momentum_squared (part : Particle) : float :=
  f_add (f_add (Scalar.sqr (px_ part)) (Scalar.sqr (py_ part))) (Scalar.sqr (pz_ part)).

Definition momentum_squared_span (part : World) : Eigen.ArrayF :=
  Eigen.add (Eigen.add (Batch.sqr (view px_ part)) (Batch.sqr (view py_ part)))
            (Batch.sqr (view pz_ part)).

(** [momentum_squared(part) / sqr(part.e())] at [Particle]. *)
Definition beta_2 (part : Particle) : float :=
  f_div (momentum_squared part) (Scalar.sqr (e_ part)).

Section WithLibm.
Context {L : Libm}.

(** [do_energy_loss<Particle>]: [1.0] promotes the loss term to [double],
    and the compound assignment rounds the difference into the [float]
    member. *)
Definition do_energy_loss (part : Particle) : Particle :=
  let beta_2 := f_div (momentum_squared part) (Scalar.sqr (e_ part)) in
  let energy_loss := Scalar.loss_term beta_2 in
  set_e (to_float (d_sub (to_double (e_ part)) energy_loss)) part.

(** [do_energy_loss<ParticleSpan>]: an array expression in [float],
    evaluated coefficient by coefficient by the compound assignment. *)
Definition do_energy_loss_span (part : World) : World :=
  let beta_2 := Eigen.div (momentum_squared_span part) (Batch.sqr (view e_ part)) in
  let energy_loss :=
    Eigen.sub_scalar
      (Eigen.div (Eigen.log (Eigen.div beta_2 (Eigen.scalar_sub d_one beta_2))) beta_2)
      d_one in
  assign_e (Eigen.sub (view e_ part) energy_loss) part.

(** What one coefficient of the span instantiation computes; not a
    function of the source. *)
Definition do_energy_loss_lane (p : Particle) : Particle :=
  set_e (f_sub (e_ p) (Lane.loss_term (beta_2 p))) p.

(** [std::variant<ContinuousEnergyLoss, DummyProcess>]. *)
Inductive Process := ContinuousEnergyLoss | DummyProcess.

(** [visit([&span](auto& proc) { proc(span); }, process)]. *)
Definition visit (process : Process) (w : World) : World :=
  match process with
  | ContinuousEnergyLoss => do_energy_loss_span w
  | DummyProcess => w
  end.

(** One benchmark iteration of each of the four methods. *)
Definition process_one (w : World) : World := for_each do_energy_loss w.

Definition process_span (w : World) : World := do_energy_loss_span w.

(** The variant holds [ContinuousEnergyLoss]; the loop over the span
    passes the whole span to it once for each record. *)
Definition variant_process_one (w : World) : World :=
  let process := ContinuousEnergyLoss in
  Nat.iter (size (span w)) (visit process) w.

Definition variant_process_span (w : World) : World :=
  let process := ContinuousEnergyLoss in
  visit process w.
End WithLibm.

(** [std::vector<Particle> stack(n); ParticleSpan span(stack);]. *)
Definition setup (n : nat) : World := make_span (replicate n Particle_zero).

End Simple.

(** The members of a record of the first demo other than the energy. *)
Definition simple_momentum (p : Simple.Particle) : float * float * float :=
  (Simple.px_ p, Simple.py_ p, Simple.pz_ p).

(** A record of the first demo at rest whose energy is a NaN. *)
Definition simple_nan : Simple.Particle :=
  Simple.mkParticle f_zero f_zero f_zero S754_nan.


(** * Properties *)

(** ** Loops over a span and assignments through views *)

Section Loops.
Context (f : Particle -> Particle).

Lemma for_range_nil n : forall it, for_range f it n [] = [].
Proof. induction n as [|n IH]; intros it; simpl; [reflexivity | apply IH]. Qed.

Lemma for_range_cons n : forall it a st,
  for_range f (S it) n (a :: st) = a :: for_range f it n st.
Proof. induction n as [|n IH]; intros it a st; simpl; [reflexivity | apply IH]. Qed.

Lemma for_range_0 n : forall st,
  for_range f 0 n st = (f <$> take n st) ++ drop n st.
Proof.
  induction n as [|n IH]; intros [|a st]; simpl; try reflexivity.
  - apply for_range_nil.
  - rewrite for_range_cons, IH. reflexivity.
Qed.

(** The loop rewrites the records of the range, each once, and nothing else. *)
Lemma for_range_spec n : forall it st,
  for_range f it n st
  = take it st ++ (f <$> take n (drop it st)) ++ drop (it + n) st.
Proof.
  intros it. induction it as [|it IH]; intros st.
  - simpl. apply for_range_0.
  - destruct st as [|a st]; simpl.
    + rewrite for_range_nil. by rewrite take_nil.
    + rewrite for_range_cons, IH. reflexivity.
Qed.

Lemma for_each_stack w :
  stack (for_each f w)
  = take (begin_ (span w)) (stack w) ++ (f <$> records (span w) (stack w))
      ++ drop (begin_ (span w) + size (span w)) (stack w).
Proof. unfold for_each, records; simpl. apply for_range_spec. Qed.

Lemma records_for_each w :
  records (span w) (stack (for_each f w)) = f <$> records (span w) (stack w).
Proof.
  rewrite for_each_stack. unfold records.
  set (b := begin_ (span w)). set (n := size (span w)). set (st := stack w).
  destruct (decide (b <= length st)%nat) as [Hb|Hb].
  - rewrite drop_app_length'; [|rewrite length_take; lia].
    destruct (decide (b + n <= length st)%nat) as [Hn|Hn].
    + rewrite take_app_length'; [reflexivity|].
      rewrite length_fmap, length_take, length_drop. lia.
    + rewrite (drop_ge st (b + n)); [|lia]. rewrite app_nil_r.
      apply take_ge. rewrite length_fmap, length_take, length_drop. lia.
  - rewrite (drop_ge st b) by lia. rewrite (drop_ge st (b + n)) by lia.
    rewrite take_nil. simpl. rewrite app_nil_r.
    rewrite (take_ge st b) by lia. rewrite (drop_ge st b) by lia. by rewrite take_nil.
Qed.

End Loops.

Lemma stack_split (sp : ParticleSpan) (st : list Particle) :
  st = take (begin_ sp) st ++ records sp st ++ drop (begin_ sp + size sp) st.
Proof.
  unfold records. rewrite <- drop_drop, take_drop, take_drop. reflexivity.
Qed.

Lemma for_each_ext f g w :
  (forall p, f p = g p) -> for_each f w = for_each g w.
Proof.
  intros H. destruct w as [st sp]. unfold for_each. simpl. f_equal.
  rewrite !for_range_spec. do 2 f_equal. apply list_fmap_ext. intros; apply H.
Qed.

Lemma world_eq w w' : stack w = stack w' -> span w = span w' -> w = w'.
Proof. destruct w, w'; simpl; congruence. Qed.

Lemma for_each_compose f g w :
  for_each g (for_each f w) = for_each (fun p => g (f p)) w.
Proof.
  apply world_eq; [|reflexivity].
  rewrite (for_each_stack g). change (span (for_each f w)) with (span w).
  rewrite records_for_each, !for_each_stack.
  set (b := begin_ (span w)). set (n := size (span w)). set (st := stack w).
  rewrite <- list_fmap_compose.
  destruct (decide (b <= length st)%nat) as [Hb|Hb].
  - rewrite take_app_length'; [|rewrite length_take; lia].
    f_equal. f_equal.
    destruct (decide (b + n <= length st)%nat) as [Hn|Hn].
    + rewrite app_assoc, drop_app_length'; [reflexivity|].
      rewrite length_app, length_fmap, length_take. unfold records. fold b n st.
      rewrite length_take, length_drop. lia.
    + rewrite (drop_ge st (b + n)) by lia. apply drop_ge.
      rewrite !length_app, length_take, length_fmap. unfold records. fold b n st.
      rewrite length_take, length_drop. simpl. lia.
  - assert (records (span w) st = []) as ->.
    { unfold records. fold b. rewrite (drop_ge st b) by lia. by rewrite take_nil. }
    simpl. rewrite (drop_ge st (b + n)) by lia. rewrite !app_nil_r.
    rewrite take_take. rewrite Nat.min_id. symmetry. rewrite (take_ge st b) by lia.
    rewrite (drop_ge st (b+n)) by lia. by rewrite app_nil_r.
Qed.

(** Assigning values computed record by record is a loop over the span. *)
Lemma assign_fmap {A} (set : A -> Particle -> Particle) (g : Particle -> A) w :
  assign set (g <$> records (span w) (stack w)) w = for_each (fun p => set (g p) p) w.
Proof.
  apply world_eq; [|reflexivity].
  rewrite for_each_stack. unfold assign; simpl. do 2 f_equal.
  rewrite zip_with_fmap_l, zip_with_diag. reflexivity.
Qed.

Lemma zip_with_fmap_same {A B C D} (op : B -> C -> D) (g : A -> B) (h : A -> C) (l : list A) :
  zip_with op (g <$> l) (h <$> l) = (fun a => op (g a) (h a)) <$> l.
Proof. by rewrite zip_with_fmap_l, zip_with_fmap_r, zip_with_diag. Qed.

Lemma fmap_fmap {A B C} (k : B -> C) (g : A -> B) (l : list A) :
  k <$> (g <$> l) = (fun a => k (g a)) <$> l.
Proof. by rewrite <- list_fmap_compose. Qed.

(** Turns an array expression over the views of one world into a single
    map over its records. *)
Ltac lanes :=
  unfold Batch.momentum_squared, Batch.charge, Batch.sqr, view,
         Eigen.add, Eigen.sub, Eigen.mul, Eigen.div, Eigen.log,
         Eigen.scalar_sub, Eigen.sub_scalar, Eigen.mul_scalar, Eigen.add_scalar,
         Eigen.ne_scalar, Eigen.cast_float;
  repeat (rewrite zip_with_fmap_same || rewrite fmap_fmap).

Lemma view_for_each {A} (get : Particle -> A) f w :
  view get (for_each f w) = (fun p => get (f p)) <$> records (span w) (stack w).
Proof.
  unfold view. change (span (for_each f w)) with (span w).
  by rewrite records_for_each, fmap_fmap.
Qed.

Lemma assign_for_each {A} (set : A -> Particle -> Particle) (g : Particle -> A) f w :
  assign set ((fun p => g (f p)) <$> records (span w) (stack w)) (for_each f w)
  = for_each (fun p => set (g (f p)) (f p)) w.
Proof.
  rewrite <- (for_each_compose f (fun q => set (g q) q)).
  rewrite <- assign_fmap. change (span (for_each f w)) with (span w).
  by rewrite records_for_each, fmap_fmap.
Qed.

(** The span instantiation of [energy_loss] acts on each record of the span
    as [Lane.energy_loss], independently of the others. *)
Lemma batch_energy_loss_lanes {L : Libm} (w : World) :
  Batch.energy_loss w = for_each Lane.energy_loss w.
Proof.
  unfold Batch.energy_loss. lanes.
  rewrite assign_fmap. reflexivity.
Qed.

(** The span instantiation of [move_particle] acts on each record of the
    span as [Lane.move_particle]. *)
Lemma batch_move_particle_lanes (w : World) :
  Batch.move_particle w = for_each Lane.move_particle w.
Proof.
  unfold Batch.move_particle. cbv zeta.
  set (dt := to_float d_tenth).
  set (sx := fun q => f_add (x_ q) (f_mul (px_ q) dt)).
  set (sy := fun q => f_add (y_ q) (f_mul (py_ q) dt)).
  set (sz := fun q => f_add (z_ q) (f_mul (pz_ q) dt)).
  set (st := fun q => f_add (t_ q) dt).
  assert (H1 : assign set_x (Eigen.add (view x_ w) (Eigen.mul_scalar (view px_ w) d_tenth)) w
               = for_each (fun p => set_x (sx p) p) w).
  { lanes. apply (assign_fmap set_x sx). }
  rewrite H1. clear H1.
  set (g1 := fun p => set_x (sx p) p).
  assert (H2 : assign set_y (Eigen.add (view y_ (for_each g1 w))
                              (Eigen.mul_scalar (view py_ (for_each g1 w)) d_tenth))
                      (for_each g1 w)
               = for_each (fun p => set_y (sy (g1 p)) (g1 p)) w).
  { rewrite !view_for_each. lanes. apply (assign_for_each set_y sy g1). }
  rewrite H2. clear H2.
  set (g2 := fun p => set_y (sy (g1 p)) (g1 p)).
  assert (H3 : assign set_z (Eigen.add (view z_ (for_each g2 w))
                              (Eigen.mul_scalar (view pz_ (for_each g2 w)) d_tenth))
                      (for_each g2 w)
               = for_each (fun p => set_z (sz (g2 p)) (g2 p)) w).
  { rewrite !view_for_each. lanes. apply (assign_for_each set_z sz g2). }
  rewrite H3. clear H3.
  set (g3 := fun p => set_z (sz (g2 p)) (g2 p)).
  assert (H4 : assign set_t (Eigen.add_scalar (view t_ (for_each g3 w)) d_tenth)
                      (for_each g3 w)
               = for_each (fun p => set_t (st (g3 p)) (g3 p)) w).
  { rewrite !view_for_each. lanes. apply (assign_for_each set_t st g3). }
  rewrite H4. clear H4.
  apply for_each_ext. intros [? ? ? ? ? ? ? ? ?]; reflexivity.
Qed.

(** ** The move operation *)

(** C4. One application of [move_particle] advances each position
    component by momentum times [dt] and the time by [dt], and leaves tag,
    momentum and energy as they were.  On one record the sums and products
    are taken in [double] ([dt] is the [double] 0.1) and rounded by the
    store; on a span every record of the span gets the same update taken in
    [float], with [dt] converted to [float].  No other record changes. *)
Theorem move_particle_step :
  (forall p : Particle,
     let p' := Scalar.move_particle p in
     x_ p' = to_float (d_add (to_double (x_ p)) (d_mul (to_double (px_ p)) d_tenth)) /\
     y_ p' = to_float (d_add (to_double (y_ p)) (d_mul (to_double (py_ p)) d_tenth)) /\
     z_ p' = to_float (d_add (to_double (z_ p)) (d_mul (to_double (pz_ p)) d_tenth)) /\
     t_ p' = to_float (d_add (to_double (t_ p)) d_tenth) /\
     px_ p' = px_ p /\ py_ p' = py_ p /\ pz_ p' = pz_ p /\
     pid_ p' = pid_ p /\ e_ p' = e_ p) /\
  (forall w : World,
     let dt := to_float d_tenth in
     let st := stack w in
     let sp := span w in
     stack (Batch.move_particle w)
     = take (begin_ sp) st
       ++ ((fun p => mkParticle (pid_ p) (px_ p) (py_ p) (pz_ p) (e_ p)
                       (f_add (x_ p) (f_mul (px_ p) dt))
                       (f_add (y_ p) (f_mul (py_ p) dt))
                       (f_add (z_ p) (f_mul (pz_ p) dt))
                       (f_add (t_ p) dt)) <$> records sp st)
       ++ drop (begin_ sp + size sp) st).
Proof.
  split.
  - intros [? ? ? ? ? ? ? ? ?]. cbn. repeat split; reflexivity.
  - intros w. cbv zeta. rewrite batch_move_particle_lanes, for_each_stack.
    reflexivity.
Qed.

(** ** The frame of the energy loss *)

Lemma same_but_e_refl p : same_but_e p p.
Proof. repeat split. Qed.

Lemma scalar_energy_loss_frame {L : Libm} p : same_but_e p (Scalar.energy_loss p).
Proof.
  unfold Scalar.energy_loss. destruct (Scalar.charge p); [|apply same_but_e_refl].
  destruct p; repeat split.
Qed.

Lemma generic_energy_loss_frame {L : Libm} p : same_but_e p (Scalar.energy_loss_generic p).
Proof. destruct p; repeat split. Qed.

Lemma lane_energy_loss_frame {L : Libm} p : same_but_e p (Lane.energy_loss p).
Proof. destruct p; repeat split. Qed.

Lemma for_each_frame (R : Particle -> Particle -> Prop) f w :
  (forall p, R p p) -> (forall p, R p (f p)) ->
  Forall2 R (stack w) (stack (for_each f w)).
Proof.
  intros Hrefl Hf. rewrite for_each_stack.
  rewrite (stack_split (span w) (stack w)) at 1.
  apply Forall2_app; [apply Forall_Forall2_diag, Forall_forall; auto|].
  apply Forall2_app; [|apply Forall_Forall2_diag, Forall_forall; auto].
  apply Forall2_fmap_r, Forall_Forall2_diag, Forall_forall; auto.
Qed.

(** C10. One application of [energy_loss] writes the energy only: the
    overload on one record, the template at one record and the template at
    a span (on every record of the storage, inside the span or not) leave
    [pid], [px], [py], [pz], [x], [y], [z] and [t] as they were; so does the
    per-record loop of [ContinuousEnergyLossNoEigen]. *)
Theorem energy_loss_writes_only_e {L : Libm} :
  (forall p, same_but_e p (Scalar.energy_loss p)) /\
  (forall p, same_but_e p (Scalar.energy_loss_generic p)) /\
  (forall w, Forall2 same_but_e (stack w) (stack (Batch.energy_loss w))) /\
  (forall w, Forall2 same_but_e (stack w) (stack (for_each Scalar.energy_loss w))).
Proof.
  split; [apply scalar_energy_loss_frame|].
  split; [apply generic_energy_loss_frame|].
  split; intros w.
  - rewrite batch_energy_loss_lanes.
    apply for_each_frame; [apply same_but_e_refl | apply lane_energy_loss_frame].
  - apply for_each_frame; [apply same_but_e_refl | apply scalar_energy_loss_frame].
Qed.

(** ** The accessor is not written *)

Lemma assign_span {A} (set : A -> Particle -> Particle) vals w :
  span (assign set vals w) = span w.
Proof. reflexivity. Qed.

Lemma visit_span {L : Libm} process w : span (visit process w) = span w.
Proof. destruct process; reflexivity. Qed.

Lemma run_list_span {L : Libm} process_list : forall w,
  span (run_list process_list w) = span w.
Proof.
  induction process_list as [|process rest IH]; intros w; [reflexivity|].
  unfold run_list in *. simpl. rewrite IH. apply visit_span.
Qed.

Lemma for_each_length f w : length (stack (for_each f w)) = length (stack w).
Proof.
  rewrite for_each_stack. rewrite (stack_split (span w) (stack w)) at 4.
  rewrite !length_app, length_fmap. reflexivity.
Qed.

Lemma visit_length {L : Libm} process w :
  length (stack (visit process w)) = length (stack w).
Proof.
  destruct process; unfold visit;
    rewrite ?batch_energy_loss_lanes, ?batch_move_particle_lanes;
    apply for_each_length.
Qed.

Lemma run_list_length {L : Libm} process_list : forall w,
  length (stack (run_list process_list w)) = length (stack w).
Proof.
  induction process_list as [|process rest IH]; intros w; [reflexivity|].
  unfold run_list in *. simpl. rewrite IH. apply visit_length.
Qed.

(** C9. A [ParticleSpan] is not written by what is applied to it: after an
    update operation in either form, after any process and after any
    process list, the accessor is the one it was, so [begin()], [end()] and
    [size()] return what they returned before; the operations write through
    the views and records only, and the storage keeps its length, so the
    range stays the one the accessor was built over. *)
Theorem span_is_immutable {L : Libm} (w : World) :
  span (Batch.energy_loss w) = span w /\
  span (Batch.move_particle w) = span w /\
  (forall f, span (for_each f w) = span w) /\
  (forall process, span (visit process w) = span w) /\
  (forall process_list,
     let w' := run_list process_list w in
     begin_ (span w') = begin_ (span w) /\
     end_ (span w') = end_ (span w) /\
     size (span w') = size (span w) /\
     length (stack w') = length (stack w)).
Proof.
  split; [reflexivity|]. split; [reflexivity|]. split; [reflexivity|].
  split; [intros process; apply visit_span|].
  intros process_list w'. subst w'.
  rewrite run_list_span, run_list_length. auto.
Qed.

(** ** The population rule *)

Lemma setup_loop_length st : forall i, length (setup_loop i st) = length st.
Proof. induction st as [|p st IH]; intros i; simpl; [reflexivity | by rewrite IH]. Qed.

Lemma setup_loop_lookup st : forall i k p,
  st !! k = Some p ->
  setup_loop i st !! k = Some (set_pid (Z.rem (i + Z.of_nat k + 1) 3 - 1) p).
Proof.
  induction st as [|q st IH]; intros i k p Hk; [discriminate|].
  destruct k as [|k].
  - replace (i + Z.of_nat 0 + 1) with (i + 1) by lia.
    simpl in *. congruence.
  - replace (i + Z.of_nat (S k) + 1) with (i + 1 + Z.of_nat k + 1) by lia.
    simpl in *. apply IH, Hk.
Qed.

Lemma tag_at_cycle k :
  tag_at k = match (k mod 3)%nat with O => 0 | S O => 1 | _ => -1 end.
Proof.
  unfold tag_at. rewrite Z.rem_mod_nonneg by lia.
  pose proof (Nat.mod_upper_bound k 3 ltac:(lia)) as Hlt.
  pose proof (Nat.div_mod_eq k 3) as Hdm.
  destruct (k mod 3)%nat as [|[|[|r]]] eqn:Hr; try lia.
  - replace (Z.of_nat k + 1) with (1 + Z.of_nat (k / 3) * 3) by lia.
    rewrite Z_mod_plus_full. reflexivity.
  - replace (Z.of_nat k + 1) with (2 + Z.of_nat (k / 3) * 3) by lia.
    rewrite Z_mod_plus_full. reflexivity.
  - replace (Z.of_nat k + 1) with (0 + (Z.of_nat (k / 3) + 1) * 3) by lia.
    rewrite Z_mod_plus_full. reflexivity.
Qed.

(** C7, as amended.  The loop of [setup_stack] increments the counter
    before it uses it, so the record at position [k] gets the tag
    [(k + 1) % 3 - 1]: the tags cycle 0, 1, -1, 0, 1, -1, ...  The records at
    the positions divisible by 3 have tag 0 and every other record has a
    nonzero tag. *)
Theorem setup_stack_tags (k : nat) :
  (k < stack_size)%nat ->
  setup_stack !! k = Some (set_pid (tag_at k) Particle_zero) /\
  tag_at k = match (k mod 3)%nat with O => 0 | S O => 1 | _ => -1 end /\
  (tag_at k = 0 <-> (k mod 3 = 0)%nat).
Proof.
  intros Hk. split; [|split].
  - unfold setup_stack, setup_stack_n.
    rewrite (setup_loop_lookup _ 0 k Particle_zero).
    + unfold tag_at. do 3 f_equal.
    + apply lookup_replicate_2. exact Hk.
  - apply tag_at_cycle.
  - rewrite tag_at_cycle. destruct (k mod 3)%nat as [|[|r]]; split; intros; lia || discriminate.
Qed.

(** The record at position 5 of the fresh stack. *)
Lemma setup_stack_tags_witness :
  setup_stack !! 5%nat = Some (set_pid (tag_at 5) Particle_zero) /\
  tag_at 5 = match (5 mod 3)%nat with O => 0 | S O => 1 | _ => -1 end /\
  (tag_at 5 = 0 <-> (5 mod 3 = 0)%nat).
Proof. apply (setup_stack_tags 5). unfold stack_size. lia. Defined.

(** C7 as stated fails: the first six tags are 0, 1, -1, 0, 1, -1 and not
    0, 1, 2, 0, 1, 2. *)
Lemma setup_stack_tags_not_0_1_2 :
  first_tags 6 = [0; 1; -1; 0; 1; -1] /\ first_tags 6 <> [0; 1; 2; 0; 1; 2].
Proof.
  assert (H : first_tags 6 = [0; 1; -1; 0; 1; -1]) by (vm_compute; reflexivity).
  split; [exact H|]. rewrite H. discriminate.
Qed.

(** ** Strided views and per-record accessors *)

Module LayoutFacts.
Import Layout.

(** [static_assert(sizeof(Particle) % sizeof(float) == 0)], and the stride
    it makes meaningful. *)
Lemma size_is_multiple_of_float : (sizeof_Particle mod sizeof_float = 0)%nat.
Proof. reflexivity. Qed.

Lemma stride_is_9 : stride = 9%nat.
Proof. reflexivity. Qed.

Lemma offset_lt_stride f : (offset f < stride)%nat.
Proof. rewrite stride_is_9. destruct f; simpl; lia. Qed.

Lemma cells_length p : length (cells p) = stride.
Proof. reflexivity. Qed.

Lemma cells_lookup f p : cells p !! offset f = Some (get f p).
Proof. destruct f; reflexivity. Qed.

Lemma cells_put f v p :
  well_typed f v = true -> <[offset f := v]> (cells p) = cells (put f v p).
Proof. destruct f, v; simpl; intros H; try discriminate; reflexivity. Qed.

Lemma buffer_cons p st : buffer (p :: st) = cells p ++ buffer st.
Proof. reflexivity. Qed.

Lemma buffer_length st : length (buffer st) = (stride * length st)%nat.
Proof.
  induction st as [|p st IH]; [simpl; lia|].
  rewrite buffer_cons, length_app, cells_length, IH. simpl length. lia.
Qed.

(** The accessor of record [k] reads the member of the [k]-th record. *)
Lemma member_buffer st : forall k p f,
  st !! k = Some p -> member (buffer st) k f = Some (get f p).
Proof.
  unfold member.
  induction st as [|q st IH]; intros k p f Hk; [discriminate|].
  pose proof (offset_lt_stride f) as Ho.
  destruct k as [|k]; rewrite buffer_cons.
  - inversion Hk; subst. rewrite Nat.mul_0_r, Nat.add_0_l.
    rewrite lookup_app_l by (rewrite cells_length; exact Ho).
    apply cells_lookup.
  - rewrite lookup_app_r by (rewrite cells_length; lia).
    rewrite cells_length.
    replace (stride * S k + offset f - stride)%nat with (stride * k + offset f)%nat by lia.
    apply IH. exact Hk.
Qed.

(** A store through cell [offset f] of record [k] is the record-level
    update of member [f]. *)
Lemma buffer_put st : forall k p f v,
  st !! k = Some p -> well_typed f v = true ->
  <[(stride * k + offset f)%nat := v]> (buffer st) = buffer (<[k := put f v p]> st).
Proof.
  induction st as [|q st IH]; intros k p f v Hk Hv; [discriminate|].
  pose proof (offset_lt_stride f) as Ho.
  destruct k as [|k]; rewrite buffer_cons.
  - inversion Hk; subst. rewrite Nat.mul_0_r, Nat.add_0_l.
    rewrite insert_app_l by (rewrite cells_length; exact Ho).
    by rewrite cells_put.
  - rewrite insert_app_r_alt by (rewrite cells_length; lia).
    rewrite cells_length.
    replace (stride * S k + offset f - stride)%nat with (stride * k + offset f)%nat by lia.
    by rewrite (IH k p f v Hk Hv).
Qed.

Lemma view_address sp f i :
  (data (span_view sp f) + stride * i = stride * (begin_ sp + i) + offset f)%nat.
Proof. simpl. lia. Qed.

(** Coefficient [i] of the view of member [f] is member [f] of record
    [begin_ + i]: the view read as a whole is the record-level [view]. *)
Lemma coeff_buffer st sp f i p :
  st !! (begin_ sp + i)%nat = Some p ->
  coeff (buffer st) (span_view sp f) i = Some (get f p).
Proof.
  intros Hp. unfold coeff. rewrite view_address.
  apply (member_buffer st _ p f Hp).
Qed.

End LayoutFacts.

(** C5. Writing a value through the strided view of a member at
    coefficient [i] of a span and reading that member through the accessor
    of the record at index [i] of the span returns the value written, for
    every [i] in range and every member; a value of the member's type is
    stored as the record-level update of that one member. *)
Theorem strided_view_round_trip
    (st : list Particle) (sp : ParticleSpan) (f : Layout.field) (i : nat)
    (v : Layout.scalar) :
  span_ok sp st -> (i < size sp)%nat ->
  let mem' := Layout.coeff_write (Layout.buffer st) (Layout.span_view sp f) i v in
  Layout.member mem' (begin_ sp + i) f = Some v /\
  Layout.coeff mem' (Layout.span_view sp f) i = Some v /\
  (Layout.well_typed f v = true ->
   exists p, st !! (begin_ sp + i)%nat = Some p /\
             mem' = Layout.buffer (<[(begin_ sp + i)%nat := Layout.put f v p]> st) /\
             Layout.get f (Layout.put f v p) = v).
Proof.
  intros [Hb He] Hi mem'. unfold size in Hi.
  assert (Hin : (begin_ sp + i < length st)%nat) by lia.
  pose proof (LayoutFacts.offset_lt_stride f) as Ho.
  assert (Haddr : (Layout.stride * (begin_ sp + i) + Layout.offset f
                   < length (Layout.buffer st))%nat).
  { rewrite LayoutFacts.buffer_length. nia. }
  subst mem'. unfold Layout.coeff_write, Layout.coeff, Layout.member.
  rewrite LayoutFacts.view_address.
  split; [apply list_lookup_insert_eq, Haddr|].
  split; [apply list_lookup_insert_eq, Haddr|].
  intros Hv. destruct (lookup_lt_is_Some_2 st _ Hin) as [p Hp].
  exists p. split; [exact Hp|]. split.
  - apply LayoutFacts.buffer_put; assumption.
  - destruct f, v; simpl in Hv; try discriminate; reflexivity.
Qed.

(** The energy of the second record of a span over the last two of three
    records. *)
Lemma strided_view_round_trip_witness :
  let st := [Particle_zero; Particle_zero; Particle_zero] in
  let sp := mkSpan 1 3 in
  let v := Layout.F32 f_one in
  let mem' := Layout.coeff_write (Layout.buffer st) (Layout.span_view sp Layout.e) 1 v in
  Layout.member mem' (begin_ sp + 1) Layout.e = Some v /\
  Layout.coeff mem' (Layout.span_view sp Layout.e) 1 = Some v /\
  (Layout.well_typed Layout.e v = true ->
   exists p, st !! (begin_ sp + 1)%nat = Some p /\
             mem' = Layout.buffer (<[(begin_ sp + 1)%nat := Layout.put Layout.e v p]> st) /\
             Layout.get Layout.e (Layout.put Layout.e v p) = v).
Proof.
  apply (strided_view_round_trip
           [Particle_zero; Particle_zero; Particle_zero] (mkSpan 1 3) Layout.e 1
           (Layout.F32 f_one)).
  - unfold span_ok; simpl; lia.
  - unfold size; simpl; lia.
Defined.

(** ** The energy loss on one record *)

Lemma scalar_beta_2_formula p : Scalar.beta_2 p = formula_beta_2 p.
Proof. reflexivity. Qed.

Lemma charge_neutral p : pid_ p = 0 -> Scalar.charge p = false.
Proof. unfold Scalar.charge. intros ->. reflexivity. Qed.

Lemma charge_charged p : pid_ p <> 0 -> Scalar.charge p = true.
Proof.
  unfold Scalar.charge. intros H. apply negb_true_iff, Z.eqb_neq, H.
Qed.

(** C3. After one application of [energy_loss] to a record: when the tag
    is the neutral sentinel 0 the energy is the one it was; for any other
    tag the new energy is the old one minus the formula's delta
    [charge * (log(beta_2 / (1 - beta_2)) / beta_2 - 1)] with [charge = 1]
    and [beta_2 = (px^2 + py^2 + pz^2) / e^2], the difference being taken
    in [double] and rounded to [float] by the store. *)
Theorem energy_loss_on_record {L : Libm} (p : Particle) :
  (pid_ p = 0 -> e_ (Scalar.energy_loss p) = e_ p) /\
  (pid_ p <> 0 ->
   e_ (Scalar.energy_loss p)
   = to_float (d_sub (to_double (e_ p)) (formula_delta d_one p))).
Proof.
  unfold Scalar.energy_loss. split; intros H.
  - rewrite (charge_neutral p H). reflexivity.
  - rewrite (charge_charged p H). reflexivity.
Qed.

(** A neutral and a charged record with [px = 1] and [e = 2]. *)
Lemma energy_loss_on_record_witness :
  (e_ (@Scalar.energy_loss special_values_libm (particle 0 1 0 0 2 0 0 0 0))
   = e_ (particle 0 1 0 0 2 0 0 0 0)) /\
  (e_ (@Scalar.energy_loss special_values_libm (particle 1 1 0 0 2 0 0 0 0))
   = to_float (d_sub (to_double (e_ (particle 1 1 0 0 2 0 0 0 0)))
                     (@formula_delta special_values_libm d_one
                        (particle 1 1 0 0 2 0 0 0 0)))).
Proof.
  split.
  - apply (proj1 (@energy_loss_on_record special_values_libm (particle 0 1 0 0 2 0 0 0 0))).
    reflexivity.
  - apply (proj2 (@energy_loss_on_record special_values_libm (particle 1 1 0 0 2 0 0 0 0))).
    simpl. lia.
Defined.

(** ** Process lists *)

Lemma visit_record_step {L : Libm} process w :
  visit process w = for_each (record_step process) w.
Proof.
  destruct process; unfold visit, record_step;
    [apply batch_energy_loss_lanes | reflexivity
    | apply batch_move_particle_lanes | reflexivity].
Qed.

Lemma run_list_app {L : Libm} l1 l2 w :
  run_list (l1 ++ l2) w = run_list l2 (run_list l1 w).
Proof. unfold run_list. apply fold_left_app. Qed.

Lemma run_list_pair {L : Libm} A B w : run_list [A; B] w = visit B (visit A w).
Proof. reflexivity. Qed.

(** Dispatching through the variant changes nothing: the list of the two
    span processes is [process_span], and the list of the two per-record
    loops is the single loop of [process_one]. *)
Lemma variant_process_span_direct {L : Libm} w :
  variant_process_span w = process_span w.
Proof. reflexivity. Qed.

Lemma variant_process_span_no_eigen_direct {L : Libm} w :
  variant_process_span_no_eigen w = process_one w.
Proof.
  unfold variant_process_span_no_eigen, process_one.
  rewrite run_list_pair. unfold visit. apply for_each_compose.
Qed.

Ltac unfold_steps :=
  unfold Lane.energy_loss, Scalar.energy_loss, Lane.move_particle, Scalar.move_particle,
         Scalar.beta_2, Scalar.momentum_squared, Scalar.charge,
         set_e, set_x, set_y, set_z, set_t;
  cbn [pid_ px_ py_ pz_ e_ x_ y_ z_ t_].

(** An energy loss reads the tag, the momentum and the energy and writes
    the energy; a move reads the momentum, the position and the time and
    writes position and time: on one record the two commute. *)
Lemma loss_move_commute {L : Libm} (A B : ProcessVariant) (p : Particle) :
  (A = ContinuousEnergyLoss \/ A = ContinuousEnergyLossNoEigen) ->
  (B = MoveParticle \/ B = MoveParticleNoEigen) ->
  record_step B (record_step A p) = record_step A (record_step B p).
Proof.
  intros [-> | ->] [-> | ->]; destruct p as [tag a1 a2 a3 a4 a5 a6 a7 a8];
    unfold record_step; unfold_steps;
    try (destruct (negb (tag =? 0)); cbn [pid_ px_ py_ pz_ e_ x_ y_ z_ t_]);
    reflexivity.
Qed.

Lemma loss_move_lists_commute {L : Libm} (A B : ProcessVariant) (w : World) :
  (A = ContinuousEnergyLoss \/ A = ContinuousEnergyLossNoEigen) ->
  (B = MoveParticle \/ B = MoveParticleNoEigen) ->
  run_list [A; B] w = run_list [B; A] w.
Proof.
  intros HA HB. rewrite !run_list_pair, !visit_record_step, !for_each_compose.
  apply for_each_ext. intros p. apply loss_move_commute; assumption.
Qed.

(** C6 as stated fails on its example: there is no library logarithm and
    no span on which [MoveParticle] and [ContinuousEnergyLoss] give
    different results in the two orders. *)
Lemma move_and_energy_loss_commute :
  ~ exists (L : Libm) (w : World),
      run_list [MoveParticle; ContinuousEnergyLoss] w
      <> run_list [ContinuousEnergyLoss; MoveParticle] w.
Proof.
  intros (L & w & H). apply H. symmetry.
  apply loss_move_lists_commute; left; reflexivity.
Qed.

(** C6, as amended.  A process list is applied in list order: [[A; B]]
    gives the state of applying [A] and then [B], and a concatenation is
    applied part after part.  The energy-loss processes commute with the
    move processes, so for [MoveParticle] and [ContinuousEnergyLoss] the
    order is not observable.  It is observable for [MoveParticle] and
    [MoveParticleNoEigen], which update the same fields in [float] and in
    [double]: on a record at the origin with momentum 9 along [x] the two
    orders end at different [x]. *)
Theorem process_list_order {L : Libm} :
  (forall A B w, run_list [A; B] w = visit B (visit A w)) /\
  (forall l1 l2 w, run_list (l1 ++ l2) w = run_list l2 (run_list l1 w)) /\
  (forall w,
     run_list [ContinuousEnergyLoss; MoveParticle] w
     = run_list [MoveParticle; ContinuousEnergyLoss] w /\
     run_list [ContinuousEnergyLossNoEigen; MoveParticleNoEigen] w
     = run_list [MoveParticleNoEigen; ContinuousEnergyLossNoEigen] w /\
     run_list [ContinuousEnergyLoss; MoveParticleNoEigen] w
     = run_list [MoveParticleNoEigen; ContinuousEnergyLoss] w /\
     run_list [ContinuousEnergyLossNoEigen; MoveParticle] w
     = run_list [MoveParticle; ContinuousEnergyLossNoEigen] w) /\
  run_list [MoveParticle; MoveParticleNoEigen] (whole [p_nine])
  <> run_list [MoveParticleNoEigen; MoveParticle] (whole [p_nine]).
Proof.
  split; [intros; apply run_list_pair|].
  split; [intros; apply run_list_app|].
  split.
  - intros w. repeat split; apply loss_move_lists_commute; auto.
  - vm_compute. discriminate.
Qed.

(** ** One record at a time against the span at once *)

Section NaN.
Variables prec emax : Z.

Lemma SFdiv_nan_r v : SFdiv prec emax v S754_nan = S754_nan.
Proof. destruct v; reflexivity. Qed.

Lemma SFsub_nan_l v : SFsub prec emax S754_nan v = S754_nan.
Proof. reflexivity. Qed.

Lemma SFsub_nan_r v : SFsub prec emax v S754_nan = S754_nan.
Proof. destruct v; reflexivity. Qed.

Lemma SFmul_nan_r v : SFmul prec emax v S754_nan = S754_nan.
Proof. destruct v; reflexivity. Qed.
End NaN.

(** A neutral record with all fields zero, as a fresh stack holds them:
    [beta_2] is 0/0, the loss term is a NaN whatever the logarithm returns,
    and the masked form stores [0 - 0 * NaN]. *)
Lemma lane_energy_loss_zero {L : Libm} :
  e_ (Lane.energy_loss Particle_zero) = S754_nan.
Proof.
  unfold Lane.energy_loss, Lane.loss_term, set_e. cbn [e_].
  change (Scalar.beta_2 Particle_zero) with S754_nan.
  unfold f_div, f_sub, f_mul.
  rewrite SFdiv_nan_r. reflexivity.
Qed.

Lemma scalar_energy_loss_zero {L : Libm} :
  Scalar.energy_loss Particle_zero = Particle_zero.
Proof. reflexivity. Qed.

(** C1 as stated fails.  For [move_particle]: a record with [x = -0.1f] and
    [px = 1] ends at [x = -2^-53 * 13421773] when moved alone (the sum is
    taken in [double]) and at [x = +0] when moved through the span (the sum
    is taken in [float]); the two differ by more than the tolerance.  For
    [energy_loss]: the neutral all-zero record of a fresh stack keeps
    [e = 0] when passed alone and gets a NaN through the span, whatever the
    library logarithm is. *)
Lemma per_record_and_span_disagree :
  ~ Forall2 particle_agree
      (stack (for_each Scalar.move_particle (whole [p_cancel])))
      (stack (Batch.move_particle (whole [p_cancel]))) /\
  (forall L : Libm,
     ~ Forall2 particle_agree
         (stack (for_each Scalar.energy_loss (whole [Particle_zero])))
         (stack (Batch.energy_loss (whole [Particle_zero])))).
Proof.
  split.
  - intros H. apply Forall2_cons_1 in H as [(_ & _ & _ & _ & _ & Hx & _) _].
    vm_compute in Hx. destruct Hx as [Hx | Hx]; discriminate Hx.
  - intros L H. rewrite batch_energy_loss_lanes in H.
    change (stack (for_each Scalar.energy_loss (whole [Particle_zero])))
      with [Scalar.energy_loss Particle_zero] in H.
    change (stack (for_each Lane.energy_loss (whole [Particle_zero])))
      with [Lane.energy_loss Particle_zero] in H.
    apply Forall2_cons_1 in H as [(_ & _ & _ & _ & He & _) _].
    rewrite scalar_energy_loss_zero, lane_energy_loss_zero in He.
    destruct He as [He | He]; discriminate He.
Qed.

Lemma same_but_position_refl p : same_but_position p p.
Proof. repeat split. Qed.

Lemma for_each_related (R : Particle -> Particle -> Prop) f g w :
  (forall p, R p p) -> (forall p, R (f p) (g p)) ->
  Forall2 R (stack (for_each f w)) (stack (for_each g w)).
Proof.
  intros Hrefl Hfg. rewrite !for_each_stack.
  apply Forall2_app; [apply Forall_Forall2_diag, Forall_forall; auto|].
  apply Forall2_app; [|apply Forall_Forall2_diag, Forall_forall; auto].
  apply Forall2_fmap, Forall_Forall2_diag, Forall_forall; auto.
Qed.

(** C1, as amended.  For every storage and every span over it, the span
    form of [energy_loss] and of [move_particle] updates each record of the
    span, independently of the others and in index order, by the template's
    body evaluated on that record in [float] (scalar constants converted to
    [float], the charge a 0/1 [float] factor), and leaves the records
    outside the span alone.  Applying the single-record form to each record
    gives the same values on every field the operation does not write; on
    the written fields it evaluates the formulas in [double] (and branches
    on the charge), which is not the same value in general. *)
Theorem span_form_is_lanewise {L : Libm} (w : World) :
  Batch.energy_loss w = for_each Lane.energy_loss w /\
  Batch.move_particle w = for_each Lane.move_particle w /\
  Forall2 same_but_e (stack (for_each Scalar.energy_loss w)) (stack (Batch.energy_loss w)) /\
  Forall2 same_but_position
          (stack (for_each Scalar.move_particle w)) (stack (Batch.move_particle w)).
Proof.
  split; [apply batch_energy_loss_lanes|].
  split; [apply batch_move_particle_lanes|].
  split.
  - rewrite batch_energy_loss_lanes.
    apply for_each_related; [apply same_but_e_refl|].
    intros [tag a1 a2 a3 a4 a5 a6 a7 a8]. unfold Scalar.energy_loss.
    destruct (Scalar.charge _); repeat split.
  - rewrite batch_move_particle_lanes.
    apply for_each_related; [apply same_but_position_refl|].
    intros [tag a1 a2 a3 a4 a5 a6 a7 a8]. repeat split.
Qed.

(** ** Promotion to [double] and back *)

Lemma iter_pos_iter {A} (f : A -> A) p : forall a, SpecFloat.iter_pos f p a = Pos.iter f a p.
Proof.
  induction p as [p IH|p IH|]; intros a; simpl.
  - rewrite !IH. rewrite Pos.iter_swap. f_equal. apply Pos.iter_swap.
  - rewrite !IH. reflexivity.
  - reflexivity.
Qed.

Lemma digits2_pos_shift m k :
  digits2_pos (Pos.iter xO m k) = (digits2_pos m + k)%positive.
Proof.
  induction k as [|k IH] using Pos.peano_ind.
  - simpl. lia.
  - rewrite Pos.iter_succ. simpl. rewrite IH. lia.
Qed.

(** Shifting right the bits a left shift added loses nothing. *)
Lemma shr_exact m k :
  SpecFloat.iter_pos shr_1 k (Build_shr_record (Zpos (Pos.iter xO m k)) false false)
  = Build_shr_record (Zpos m) false false.
Proof.
  rewrite iter_pos_iter.
  induction k as [|k IH] using Pos.peano_ind.
  - reflexivity.
  - rewrite (Pos.iter_succ k _ xO m), (Pos.iter_succ_r k _ shr_1). simpl. exact IH.
Qed.

Lemma shl_align_left mx ex ex' :
  ex' < ex -> shl_align mx ex ex' = (Pos.iter xO mx (Z.to_pos (ex - ex')), ex').
Proof.
  intros H. unfold shl_align. destruct (ex' - ex) as [|p|p] eqn:E; try lia.
  replace (ex - ex') with (Zpos p) by lia. reflexivity.
Qed.

Lemma shl_align_same mx ex ex' : ex <= ex' -> shl_align mx ex ex' = (mx, ex).
Proof.
  intros H. unfold shl_align. destruct (ex' - ex) as [|p|p] eqn:E; try lia; reflexivity.
Qed.

Lemma valid_float_bounds s m e :
  valid_float (S754_finite s m e) ->
  let d := Zpos (digits2_pos m) in
  d <= 24 /\ -149 <= e <= 104 /\ e = Z.max (d + e - 24) (-149).
Proof.
  intros H d.
  unfold valid_float, valid_binary, bounded, canonical_mantissa, fexp, emin in H.
  apply andb_true_iff in H as [H1 H2].
  apply Z.eqb_eq in H1. apply Z.leb_le in H2. fold d in H1. lia.
Qed.

(** The promotion of a binary32 datum: the same value on 53 bits. *)
Lemma to_double_valid s m e :
  valid_float (S754_finite s m e) ->
  let d := Zpos (digits2_pos m) in
  to_double (S754_finite s m e)
  = S754_finite s (Pos.iter xO m (Z.to_pos (53 - d))) (d + e - 53).
Proof.
  intros Hv d. destruct (valid_float_bounds s m e Hv) as (Hd & He & Hc). fold d in Hd, Hc.
  assert (Hd1 : 1 <= d) by (unfold d; lia).
  unfold to_double, conv, binary_round.
  assert (Hf : fexp 53 1024 (Z.pos (digits2_pos m) + e) = d + e - 53).
  { unfold fexp, emin. fold d. lia. }
  rewrite Hf, shl_align_left by lia.
  replace (e - (d + e - 53)) with (53 - d) by lia.
  set (k := Z.to_pos (53 - d)). set (mz := Pos.iter xO m k).
  assert (Hdz : Zpos (digits2_pos mz) = 53).
  { unfold mz. rewrite digits2_pos_shift. unfold k. fold d. lia. }
  unfold binary_round_aux, shr_fexp. cbn [Zdigits2 shr_record_of_loc].
  assert (Hs : fexp 53 1024 (Z.pos (digits2_pos mz) + (d + e - 53)) - (d + e - 53) = 0).
  { rewrite Hdz. unfold fexp, emin. lia. }
  rewrite Hs. cbn [shr shr_m loc_of_shr_record round_nearest_even Zdigits2 shr_record_of_loc].
  rewrite Hs. cbn [shr shr_m].
  replace (d + e - 53 <=? 1024 - 53) with true by (symmetry; apply Z.leb_le; lia).
  reflexivity.
Qed.

(** Promoting a binary32 datum and converting it back gives it again. *)
Lemma to_float_to_double v : valid_float v -> to_float (to_double v) = v.
Proof.
  destruct v as [s|s| |s m e]; try reflexivity.
  intros Hv. rewrite (to_double_valid s m e Hv). cbv zeta.
  destruct (valid_float_bounds s m e Hv) as (Hd & He & Hc).
  set (d := Zpos (digits2_pos m)) in *.
  assert (Hd1 : 1 <= d) by (unfold d; lia).
  set (k := Z.to_pos (53 - d)). set (mz := Pos.iter xO m k).
  assert (Hdz : Zpos (digits2_pos mz) = 53).
  { unfold mz. rewrite digits2_pos_shift. unfold k. fold d. lia. }
  unfold to_float, conv, binary_round.
  assert (Hf : fexp 24 128 (Z.pos (digits2_pos mz) + (d + e - 53)) = e).
  { rewrite Hdz. unfold fexp, emin. lia. }
  rewrite Hf, shl_align_same by lia.
  unfold binary_round_aux, shr_fexp. cbn [Zdigits2 shr_record_of_loc].
  rewrite Hf. replace (e - (d + e - 53)) with (Zpos k) by (unfold k; lia).
  cbn [shr]. unfold mz. rewrite shr_exact.
  cbn [shr_m loc_of_shr_record round_nearest_even Zdigits2 shr_record_of_loc].
  replace (d + e - 53 + Z.pos k) with e by (unfold k; lia).
  assert (Hs : fexp 24 128 (Z.pos (digits2_pos m) + e) - e = 0).
  { unfold fexp, emin. fold d. lia. }
  rewrite Hs. cbn [shr shr_m].
  replace (e <=? 128 - 24) with true by (symmetry; apply Z.leb_le; lia).
  reflexivity.
Qed.

(** ** The exact comparison against one *)

Lemma digits2_pos_bounds m :
  2 ^ (Zpos (digits2_pos m) - 1) <= Zpos m < 2 ^ Zpos (digits2_pos m).
Proof.
  induction m as [m IH|m IH|]; simpl digits2_pos.
  - rewrite Pos2Z.inj_succ.
    replace (Z.succ (Zpos (digits2_pos m)) - 1) with (Z.succ (Zpos (digits2_pos m) - 1)) by lia.
    rewrite !Z.pow_succ_r by lia. lia.
  - rewrite Pos2Z.inj_succ.
    replace (Z.succ (Zpos (digits2_pos m)) - 1) with (Z.succ (Zpos (digits2_pos m) - 1)) by lia.
    rewrite !Z.pow_succ_r by lia. lia.
  - simpl. lia.
Qed.

Lemma iter_xO_pow m k : Zpos (Pos.iter xO m k) = Zpos m * 2 ^ Zpos k.
Proof.
  induction k as [|k IH] using Pos.peano_ind.
  - simpl. lia.
  - rewrite Pos.iter_succ, Pos2Z.inj_xO, IH, Pos2Z.inj_succ, Z.pow_succ_r by lia. lia.
Qed.

Lemma scaled_finite s m e ez :
  ez <= e -> scaled ez (S754_finite s m e) = cond_Zopp s (Zpos m * 2 ^ (e - ez)).
Proof.
  intros H. unfold scaled. destruct (Z.eq_dec ez e) as [-> | Hne].
  - rewrite shl_align_same by lia. rewrite Z.sub_diag. simpl fst. f_equal. lia.
  - rewrite shl_align_left by lia. simpl fst. rewrite iter_xO_pow.
    f_equal. f_equal. f_equal. lia.
Qed.

Section GeOne.
Variables prec emax : Z.
Hypothesis prec_pos : 0 < prec.
Hypothesis emax_big : 2 <= emax.
Variable m1 : positive.
Hypothesis m1_one : Zpos m1 = 2 ^ (prec - 1).

(** On a well-formed datum [ge_one] is the comparison of the format. *)
Lemma ge_one_SFleb x :
  valid_binary prec emax x = true ->
  ge_one (S754_finite false m1 (1 - prec)) x
  = SFleb (S754_finite false m1 (1 - prec)) x.
Proof.
  destruct x as [s|[|]| |[|] m e]; try reflexivity.
  intros Hv. unfold valid_binary, bounded, canonical_mantissa, fexp, emin in Hv.
  apply andb_true_iff in Hv as [Hc _]. apply Z.eqb_eq in Hc.
  pose proof (digits2_pos_bounds m) as [Hlo Hhi].
  set (d := Zpos (digits2_pos m)) in *.
  unfold ge_one, SFleb, SFcompare. cbn [exponent].
  destruct (Z.compare_spec (1 - prec) e) as [He | He | He].
  - subst e. rewrite Z.min_id. rewrite !scaled_finite by lia.
    rewrite Z.sub_diag. cbn [cond_Zopp]. rewrite !Z.mul_1_r.
    rewrite Pos.compare_cont_spec. cbn [Pos.switch_Eq].
    change (Pos.compare m1 m) with (Z.compare (Zpos m1) (Zpos m)).
    destruct (Z.compare_spec (Zpos m1) (Zpos m)); [apply Z.leb_le | apply Z.leb_le | apply Z.leb_gt]; lia.
  - rewrite Z.min_l by lia. rewrite !scaled_finite by lia.
    rewrite Z.sub_diag. cbn [cond_Zopp]. rewrite Z.mul_1_r.
    apply Z.leb_le.
    assert (Hd : d = prec) by lia.
    assert (0 < 2 ^ (e - (1 - prec))) by (apply Z.pow_pos_nonneg; lia).
    rewrite Hd in Hlo. nia.
  - rewrite Z.min_r by lia. rewrite !scaled_finite by lia.
    rewrite Z.sub_diag. cbn [cond_Zopp]. rewrite Z.mul_1_r.
    apply Z.leb_gt.
    assert (Hd : d <= prec) by lia.
    assert (Hp : 2 ^ d <= 2 ^ prec) by (apply Z.pow_le_mono_r; lia).
    assert (Hq : 2 ^ 1 <= 2 ^ (1 - prec - e)) by (apply Z.pow_le_mono_r; lia).
    assert (Hr : 2 ^ prec = 2 ^ (prec - 1) * 2 ^ 1).
    { rewrite <- Z.pow_add_r by lia. f_equal. lia. }
    rewrite m1_one. nia.
Qed.
End GeOne.

Lemma ge_one_double x :
  valid_binary 53 1024 x = true -> ge_one d_one x = SFleb d_one x.
Proof. apply (ge_one_SFleb 53 1024); [lia | lia | reflexivity]. Qed.

Lemma ge_one_float x :
  valid_binary 24 128 x = true -> ge_one f_one x = SFleb f_one x.
Proof. apply (ge_one_SFleb 24 128); [lia | lia | reflexivity]. Qed.

Lemma le_zero_cases x :
  le_zero x = match x with
              | S754_zero _ | S754_infinity true | S754_finite true _ _ => true
              | _ => false
              end.
Proof. destruct x as [s|[|]| |[|] m e]; reflexivity. Qed.

(** ** Every arithmetic result is a well-formed datum *)

Lemma Zdigits2_nonneg m : 0 <= Zdigits2 m.
Proof. destruct m; simpl; lia. Qed.

Lemma Zdigits2_bounds m :
  0 < m -> 2 ^ (Zdigits2 m - 1) <= m < 2 ^ Zdigits2 m.
Proof. destruct m as [|p|p]; try lia. intros _. apply digits2_pos_bounds. Qed.

Lemma Zdigits2_unique m k :
  0 < m -> 2 ^ (k - 1) <= m < 2 ^ k -> Zdigits2 m = k.
Proof.
  intros Hm [Hlo Hhi]. pose proof (Zdigits2_bounds m Hm) as [Dlo Dhi].
  pose proof (Zdigits2_nonneg m) as Dnn.
  assert (Hk : 0 < k).
  { destruct (Z_lt_le_dec 0 k) as [|Hk]; [assumption|].
    destruct (Z.eq_dec k 0) as [-> | Hne]; [simpl in Hhi; lia|].
    rewrite (Z.pow_neg_r 2 k) in Hhi by lia. lia. }
  destruct (Z.lt_trichotomy (Zdigits2 m) k) as [Hlt | [Heq | Hgt]]; [|exact Heq|].
  - assert (2 ^ Zdigits2 m <= 2 ^ (k - 1)) by (apply Z.pow_le_mono_r; lia). lia.
  - assert (2 ^ k <= 2 ^ (Zdigits2 m - 1)) by (apply Z.pow_le_mono_r; lia). lia.
Qed.

Lemma Zdigits2_mono a b : 0 <= a <= b -> Zdigits2 a <= Zdigits2 b.
Proof.
  intros [Ha Hab]. destruct (Z.eq_dec a 0) as [-> | Hne]; [apply Zdigits2_nonneg|].
  pose proof (Zdigits2_bounds a ltac:(lia)) as [Alo Ahi].
  pose proof (Zdigits2_bounds b ltac:(lia)) as [Blo Bhi].
  destruct (Z_lt_le_dec (Zdigits2 b) (Zdigits2 a)) as [Hlt|]; [|assumption].
  assert (2 ^ Zdigits2 b <= 2 ^ (Zdigits2 a - 1)).
  { apply Z.pow_le_mono_r; [lia|]. lia. }
  lia.
Qed.

(** The digits of a quotient by a power of two. *)
Lemma Zdigits2_div_pow m n :
  0 < m -> 0 <= n ->
  (n < Zdigits2 m -> Zdigits2 (m / 2 ^ n) = Zdigits2 m - n /\ 0 < m / 2 ^ n) /\
  (Zdigits2 m <= n -> m / 2 ^ n = 0).
Proof.
  intros Hm Hn. pose proof (Zdigits2_bounds m Hm) as [Dlo Dhi].
  assert (Hp : 0 < 2 ^ n) by (apply Z.pow_pos_nonneg; lia).
  split.
  - intros Hlt.
    assert (E1 : 2 ^ (Zdigits2 m - 1) = 2 ^ (Zdigits2 m - n - 1) * 2 ^ n).
    { rewrite <- Z.pow_add_r by lia. f_equal. lia. }
    assert (E2 : 2 ^ Zdigits2 m = 2 ^ (Zdigits2 m - n) * 2 ^ n).
    { rewrite <- Z.pow_add_r by lia. f_equal. lia. }
    assert (Hlo : 2 ^ (Zdigits2 m - n - 1) <= m / 2 ^ n).
    { apply Z.div_le_lower_bound; lia. }
    assert (Hhi : m / 2 ^ n < 2 ^ (Zdigits2 m - n)).
    { apply Z.div_lt_upper_bound; lia. }
    assert (0 < 2 ^ (Zdigits2 m - n - 1)) by (apply Z.pow_pos_nonneg; lia).
    split; [|lia]. apply Zdigits2_unique; [lia|].
    replace (Zdigits2 m - n - 1) with (Zdigits2 m - n - 1) by lia. split; [|exact Hhi].
    replace (Zdigits2 m - n - 1) with (Zdigits2 m - n - 1) in Hlo by lia. exact Hlo.
  - intros Hge. apply Z.div_small. split; [lia|].
    assert (2 ^ Zdigits2 m <= 2 ^ n) by (apply Z.pow_le_mono_r; lia). lia.
Qed.

Lemma shr_1_m mrs : 0 <= shr_m mrs -> shr_m (shr_1 mrs) = shr_m mrs / 2.
Proof.
  destruct mrs as [m r s]. simpl. intros Hm.
  destruct m as [|[p|p|]|p]; try lia; simpl shr_m.
  - reflexivity.
  - apply (Z.div_unique _ _ _ 1); lia.
  - apply (Z.div_unique _ _ _ 0); lia.
  - reflexivity.
Qed.

Lemma shr_m_iter p : forall mrs,
  0 <= shr_m mrs ->
  shr_m (SpecFloat.iter_pos shr_1 p mrs) = shr_m mrs / 2 ^ Zpos p.
Proof.
  intros mrs Hm. rewrite iter_pos_iter.
  induction p as [|p IH] using Pos.peano_ind.
  - simpl Pos.iter. rewrite shr_1_m by assumption. reflexivity.
  - rewrite Pos.iter_succ, shr_1_m.
    + rewrite IH, Pos2Z.inj_succ, Z.pow_succ_r by lia.
      rewrite Z.div_div by (try apply Z.pow_pos_nonneg; lia). f_equal. lia.
    + rewrite IH. apply Z.div_pos; [assumption|]. apply Z.pow_pos_nonneg; lia.
Qed.

Lemma round_nearest_even_bounds m l :
  m <= round_nearest_even m l <= m + 1.
Proof.
  destruct l as [|[| |]]; simpl; try lia. destruct (Z.even m); lia.
Qed.

Section Valid.
Variables prec emax : Z.
Hypothesis prec_pos : 0 < prec.

Lemma fexp_mono a b : a <= b -> fexp prec emax a <= fexp prec emax b.
Proof. unfold fexp. lia. Qed.

Lemma fexp_small a :
  a <= fexp prec emax a -> fexp prec emax a = emin prec emax.
Proof. unfold fexp. lia. Qed.

Lemma fexp_ge_emin a : emin prec emax <= fexp prec emax a.
Proof. unfold fexp. lia. Qed.

(** One shift to the exponent the format gives the number: the mantissa is
    divided by the power of two, and a mantissa that stays positive is
    canonical. *)
Lemma shr_fexp_spec m e l :
  0 <= m -> e <= fexp prec emax (Zdigits2 m + e) ->
  exists mrs,
    shr_fexp prec emax m e l = (mrs, fexp prec emax (Zdigits2 m + e)) /\
    shr_m mrs = m / 2 ^ (fexp prec emax (Zdigits2 m + e) - e) /\
    0 <= shr_m mrs /\
    (0 < shr_m mrs ->
     fexp prec emax (Zdigits2 (shr_m mrs) + fexp prec emax (Zdigits2 m + e))
     = fexp prec emax (Zdigits2 m + e)) /\
    (shr_m mrs = 0 -> fexp prec emax (Zdigits2 m + e) = emin prec emax).
Proof.
  intros Hm He. unfold shr_fexp, shr.
  set (e' := fexp prec emax (Zdigits2 m + e)) in *.
  assert (Hrec : shr_m (shr_record_of_loc m l) = m).
  { destruct l as [|[| |]]; reflexivity. }
  destruct (e' - e) as [|p|p] eqn:En; try lia.
  - eexists. split; [f_equal; lia|]. rewrite Hrec, Z.div_1_r.
    split; [reflexivity|]. split; [assumption|]. split.
    + intros _. unfold e' at 2. f_equal. lia.
    + intros ->. simpl in He. apply fexp_small.
      subst e'. simpl in En. simpl. lia.
  - eexists. split; [f_equal; lia|].
    rewrite shr_m_iter by (rewrite Hrec; assumption). rewrite Hrec.
    assert (Hp : 0 < 2 ^ Zpos p) by (apply Z.pow_pos_nonneg; lia).
    split; [reflexivity|]. split; [apply Z.div_pos; lia|].
    destruct (Z.eq_dec m 0) as [-> | Hne].
    { rewrite Z.div_0_l by lia. split; [lia|]. intros _.
      apply fexp_small. simpl. simpl in He. exact He. }
    destruct (Zdigits2_div_pow m (Zpos p) ltac:(lia) ltac:(lia)) as [Hlt Hge].
    split.
    + intros Hpos. destruct (Z_lt_le_dec (Zpos p) (Zdigits2 m)) as [Hd | Hd].
      * destruct (Hlt Hd) as [-> _]. f_equal. lia.
      * rewrite (Hge Hd) in Hpos. lia.
    + intros Hz. destruct (Z_lt_le_dec (Zpos p) (Zdigits2 m)) as [Hd | Hd].
      * destruct (Hlt Hd) as [_ Hpos]. lia.
      * apply fexp_small. fold e'. lia.
Qed.

(** Rounding a mantissa at or below its canonical exponent gives a
    well-formed datum. *)
Lemma binary_round_aux_valid s m e l :
  0 <= m -> e <= fexp prec emax (Zdigits2 m + e) ->
  valid_binary prec emax (binary_round_aux prec emax s m e l) = true.
Proof.
  intros Hm He. unfold binary_round_aux.
  destruct (shr_fexp_spec m e l Hm He) as (mrs' & -> & Hm1 & Hnn1 & Hc1 & Hz1).
  set (e' := fexp prec emax (Zdigits2 m + e)) in *.
  set (m2 := round_nearest_even (shr_m mrs') (loc_of_shr_record mrs')).
  pose proof (round_nearest_even_bounds (shr_m mrs') (loc_of_shr_record mrs')) as Hr.
  fold m2 in Hr.
  assert (Hm2 : 0 <= m2) by lia.
  assert (He2 : e' <= fexp prec emax (Zdigits2 m2 + e')).
  { destruct (Z.eq_dec (shr_m mrs') 0) as [Hz | Hne].
    - rewrite (Hz1 Hz). apply fexp_ge_emin.
    - rewrite <- (Hc1 ltac:(lia)) at 1. apply fexp_mono.
      pose proof (Zdigits2_mono (shr_m mrs') m2 ltac:(lia)). lia. }
  destruct (shr_fexp_spec m2 e' loc_Exact Hm2 He2) as (mrs'' & -> & Hm3 & Hnn3 & Hc3 & Hz3).
  destruct (shr_m mrs'') as [|p|p] eqn:E; [reflexivity | | lia].
  destruct (Z.leb_spec (fexp prec emax (Zdigits2 m2 + e')) (emax - prec)) as [Hle | Hgt];
    [|reflexivity].
  unfold valid_binary, bounded, canonical_mantissa.
  apply andb_true_iff. split; [|apply Z.leb_le; exact Hle].
  apply Z.eqb_eq. apply (Hc3 ltac:(lia)).
Qed.

Lemma binary_round_valid s m e :
  valid_binary prec emax (binary_round prec emax s m e) = true.
Proof.
  unfold binary_round.
  set (t := fexp prec emax (Zpos (digits2_pos m) + e)).
  destruct (Z_lt_le_dec t e) as [Hlt | Hge].
  - rewrite shl_align_left by assumption.
    apply binary_round_aux_valid; [lia|].
    cbn [Zdigits2]. rewrite digits2_pos_shift.
    replace (Zpos (digits2_pos m + Z.to_pos (e - t)) + t) with (Zpos (digits2_pos m) + e) by lia.
    fold t. lia.
  - rewrite shl_align_same by assumption.
    apply binary_round_aux_valid; [lia|]. exact Hge.
Qed.

Lemma binary_normalize_valid m e sz :
  valid_binary prec emax (binary_normalize prec emax m e sz) = true.
Proof. destruct m; [reflexivity | apply binary_round_valid | apply binary_round_valid]. Qed.

Lemma conv_valid v :
  valid_binary prec emax (conv prec emax v) = true.
Proof. destruct v; try reflexivity. apply binary_round_valid. Qed.

Lemma SFadd_valid a b :
  valid_binary prec emax a = true -> valid_binary prec emax b = true ->
  valid_binary prec emax (SFadd prec emax a b) = true.
Proof.
  destruct a as [sa|sa| |sa ma ea], b as [sb|sb| |sb mb eb]; intros Ha Hb;
    try reflexivity; try assumption.
  - destruct sa, sb; reflexivity.
  - destruct sa, sb; reflexivity.
  - apply binary_normalize_valid.
Qed.

Lemma SFsub_valid a b :
  valid_binary prec emax a = true -> valid_binary prec emax b = true ->
  valid_binary prec emax (SFsub prec emax a b) = true.
Proof.
  destruct a as [sa|sa| |sa ma ea], b as [sb|sb| |sb mb eb]; intros Ha Hb;
    try reflexivity; try assumption.
  - destruct sa, sb; reflexivity.
  - destruct sa, sb; reflexivity.
  - apply binary_normalize_valid.
Qed.

End Valid.

Section ValidDiv.
Variables prec emax : Z.
Hypothesis prec_pos : 0 < prec.

(** The quotient of the division has enough digits for its exponent. *)
Lemma SFdiv_core_binary_spec m1 e1 m2 e2 q e' l :
  SFdiv_core_binary prec emax (Zpos m1) e1 (Zpos m2) e2 = (q, e', l) ->
  0 <= q /\ e' <= fexp prec emax (Zdigits2 q + e').
Proof.
  unfold SFdiv_core_binary.
  set (d1 := Zdigits2 (Zpos m1)). set (d2 := Zdigits2 (Zpos m2)).
  set (ee := Z.min (fexp prec emax (d1 + e1 - (d2 + e2))) (e1 - e2)).
  remember (e1 - e2 - ee) as s eqn:Es.
  assert (Hs : 0 <= s) by (unfold ee in Es; lia).
  set (m' := match s with Z.pos _ => Z.shiftl (Zpos m1) s | 0 => Zpos m1 | Z.neg _ => 0 end).
  assert (Hm' : m' = Zpos m1 * 2 ^ s).
  { unfold m'. destruct s as [|p|p];
      [simpl; lia | apply Z.shiftl_mul_pow2; lia | lia]. }
  pose proof (Z.div_eucl_eq m' (Zpos m2) ltac:(lia)) as Heq.
  pose proof (Z.mod_pos_bound m' (Zpos m2) ltac:(lia)) as Hmod.
  unfold Z.modulo in Hmod.
  destruct (Z.div_eucl m' (Zpos m2)) as [q0 r0] eqn:Ediv.
  intros H. inversion H; subst q e' l. clear H.
  assert (Hp : 0 < 2 ^ s) by (apply Z.pow_pos_nonneg; lia).
  assert (Hq0 : 0 <= q0) by nia.
  split; [exact Hq0|].
  pose proof (Zdigits2_bounds (Zpos m1) ltac:(lia)) as [L1 U1]. fold d1 in L1, U1.
  pose proof (Zdigits2_bounds (Zpos m2) ltac:(lia)) as [L2 U2]. fold d2 in L2, U2.
  assert (Hd1 : 1 <= d1) by (unfold d1; simpl; lia).
  assert (Hd2 : 1 <= d2) by (unfold d2; simpl; lia).
  destruct (Z.eq_dec q0 0) as [-> | Hne].
  - (* all the dividend is below the divisor *)
    assert (Hlt : Zpos m1 * 2 ^ s < Zpos m2) by lia.
    assert (Hpow : 2 ^ (d1 - 1 + s) < 2 ^ d2).
    { rewrite Z.pow_add_r by lia. nia. }
    apply Z.pow_lt_mono_r_iff in Hpow; [|lia|lia].
    simpl Zdigits2. rewrite Z.add_0_l.
    unfold fexp. unfold ee, fexp in *. lia.
  - assert (Hk : d1 + s - d2 <= Zdigits2 q0).
    { pose proof (Zdigits2_bounds q0 ltac:(lia)) as [Lq Uq].
      destruct (Z_lt_le_dec (d1 + s - d2) 2) as [Hsmall | Hbig].
      - assert (1 <= Zdigits2 q0).
        { destruct q0; simpl; lia. }
        lia.
      - assert (Hlow : 2 ^ (d1 + s - d2 - 1) * Zpos m2 <= m').
        { rewrite Hm'.
          assert (2 ^ (d1 + s - d2 - 1) * 2 ^ d2 = 2 ^ (d1 - 1) * 2 ^ s).
          { rewrite <- !Z.pow_add_r by lia. f_equal. lia. }
          assert (0 < 2 ^ (d1 + s - d2 - 1)) by (apply Z.pow_pos_nonneg; lia).
          nia. }
        assert (Hq : 2 ^ (d1 + s - d2 - 1) <= q0).
        { assert (0 < 2 ^ (d1 + s - d2 - 1)) by (apply Z.pow_pos_nonneg; lia).
          nia. }
        assert (Hlt : 2 ^ (d1 + s - d2 - 1) < 2 ^ Zdigits2 q0) by lia.
        apply Z.pow_lt_mono_r_iff in Hlt; [lia | lia | apply Zdigits2_nonneg]. }
    transitivity (fexp prec emax (d1 + e1 - (d2 + e2))); [unfold ee; lia|].
    apply fexp_mono. lia.
Qed.

Lemma SFdiv_valid a b : valid_binary prec emax (SFdiv prec emax a b) = true.
Proof.
  destruct a as [sa|sa| |sa ma ea], b as [sb|sb| |sb mb eb]; try reflexivity.
  unfold SFdiv.
  destruct (SFdiv_core_binary prec emax (Zpos ma) ea (Zpos mb) eb) as [[q e'] l] eqn:E.
  destruct (SFdiv_core_binary_spec _ _ _ _ _ _ _ E) as [Hq He].
  apply binary_round_aux_valid; assumption.
Qed.
End ValidDiv.

(** [beta_2] is a well-formed binary32 datum whatever the record holds. *)
Lemma beta_2_valid p : valid_float (Scalar.beta_2 p).
Proof. apply (SFdiv_valid 24 128). lia. Qed.

(** The comparison [1 <= b] survives the promotion to [double]. *)
Lemma ge_one_promoted b :
  valid_float b -> SFleb f_one b = true -> ge_one d_one (to_double b) = true.
Proof.
  intros Hv Hle. rewrite <- (ge_one_float b Hv) in Hle.
  destruct b as [s|[|]| |[|] m e]; try discriminate Hle; [reflexivity|].
  rewrite (to_double_valid _ m e Hv). cbv zeta.
  destruct (valid_float_bounds _ m e Hv) as (Hd & He & Hc).
  pose proof (digits2_pos_bounds m) as [Dlo Dhi].
  set (d := Zpos (digits2_pos m)) in *.
  assert (Hd1 : 1 <= d) by (unfold d; lia).
  unfold ge_one, f_one, d_one in *. cbn [exponent] in *.
  apply Z.leb_le in Hle. apply Z.leb_le.
  set (ez := Z.min (-23) e) in *.
  rewrite !scaled_finite in Hle by (unfold ez; lia). cbn [cond_Zopp] in Hle.
  assert (H24 : 2 ^ d <= 2 ^ 24) by (apply Z.pow_le_mono_r; lia).
  assert (Hnorm : -23 <= e /\ d = 24).
  { destruct (Z_lt_le_dec e (-23)) as [Hlt | Hge].
    - exfalso. replace ez with e in Hle by (unfold ez; lia).
      rewrite Z.sub_diag, Z.mul_1_r in Hle.
      assert (2 ^ 1 <= 2 ^ (-23 - e)) by (apply Z.pow_le_mono_r; lia).
      change (2 ^ 24) with 16777216 in H24. change (2 ^ 1) with 2 in *. nia.
    - split; [lia|].
      destruct (Z.eq_dec e (-23)) as [-> | Hne]; [|lia].
      replace ez with (-23) in Hle by (unfold ez; lia).
      simpl in Hle.
      destruct (Z.eq_dec d 24) as [|Hd24]; [assumption|].
      assert (2 ^ d <= 2 ^ 23) by (apply Z.pow_le_mono_r; lia).
      change (2 ^ 23) with 8388608 in *. lia. }
  destruct Hnorm as [He23 Hd24]. rewrite Hd24 in *.
  replace (Z.min (-52) (24 + e - 53)) with (-52) by lia.
  rewrite !scaled_finite by lia. cbn [cond_Zopp].
  rewrite iter_xO_pow.
  replace (-52 - -52) with 0 by lia.
  change (Z.pos (Z.to_pos (53 - 24))) with 29.
  replace (24 + e - 53 - -52) with (e + 23) by lia.
  assert (0 < 2 ^ (e + 23)) by (apply Z.pow_pos_nonneg; lia).
  change (2 ^ (24 - 1)) with 8388608 in Dlo.
  change (2 ^ 29) with 536870912. change (2 ^ 0) with 1. nia.
Qed.

(** ** Out-of-domain inputs *)

Section Shapes.
Variables prec emax : Z.

(** Rounding keeps the sign it is given. *)
Lemma binary_round_aux_signed s m e l :
  signed s (binary_round_aux prec emax s m e l).
Proof.
  unfold binary_round_aux.
  destruct (shr_fexp prec emax m e l) as [mrs' e'].
  destruct (shr_fexp prec emax _ e' loc_Exact) as [mrs'' e''].
  destruct (shr_m mrs''); [reflexivity | | exact I].
  destruct (e'' <=? emax - prec); reflexivity.
Qed.

Lemma binary_round_signed s m e : signed s (binary_round prec emax s m e).
Proof.
  unfold binary_round. destruct (shl_align _ _ _) as [mz ez].
  apply binary_round_aux_signed.
Qed.

Lemma binary_normalize_pos m e sz :
  0 < m -> signed false (binary_normalize prec emax m e sz).
Proof. destruct m; try lia. intros _. apply binary_round_signed. Qed.

Lemma binary_normalize_neg m e sz :
  m < 0 -> signed true (binary_normalize prec emax m e sz).
Proof. destruct m; try lia. intros _. apply binary_round_signed. Qed.

Lemma signed_true_not_pos_finite v : signed true v -> pos_finite v = false.
Proof. destruct v as [s|s| |s m e]; simpl; intros H; subst; reflexivity. Qed.

(** A finite or infinite dividend over a divisor of the opposite sign. *)
Lemma SFdiv_pos_by_signed_true m e d :
  signed true d -> pos_finite (SFdiv prec emax (S754_finite false m e) d) = false.
Proof.
  destruct d as [s|s| |s md ed]; simpl; intros H; subst; try reflexivity.
  destruct (SFdiv_core_binary _ _ _ _ _ _) as [[mz ez] lz].
  apply signed_true_not_pos_finite, (binary_round_aux_signed true).
Qed.

Lemma SFdiv_neg_by_signed_false m e d :
  signed false d -> pos_finite (SFdiv prec emax (S754_finite true m e) d) = false.
Proof.
  destruct d as [s|s| |s md ed]; simpl; intros H; subst; try reflexivity.
  destruct (SFdiv_core_binary _ _ _ _ _ _) as [[mz ez] lz].
  apply signed_true_not_pos_finite, (binary_round_aux_signed true).
Qed.

Lemma SFdiv_nonfinite_l l b :
  is_finite l = false -> is_finite (SFdiv prec emax l b) = false.
Proof. destruct l, b; simpl; intros H; try discriminate; reflexivity. Qed.

Lemma SFdiv_by_zero l s : is_finite (SFdiv prec emax l (S754_zero s)) = false.
Proof. destruct l; reflexivity. Qed.

Lemma SFsub_nonfinite_l r m e :
  is_finite r = false -> is_finite (SFsub prec emax r (S754_finite false m e)) = false.
Proof. destruct r; simpl; intros H; try discriminate; reflexivity. Qed.

Lemma SFsub_nonfinite_r a t :
  is_finite t = false -> is_finite (SFsub prec emax a t) = false.
Proof.
  destruct a as [sa|sa| |sa ma ea], t as [st|st| |st mt et]; simpl; intros H;
    try discriminate; try reflexivity.
  destruct sa, st; reflexivity.
Qed.

Lemma SFmul_nonfinite_r s m e t :
  is_finite t = false -> is_finite (SFmul prec emax (S754_finite s m e) t) = false.
Proof. destruct t; simpl; intros H; try discriminate; reflexivity. Qed.

Lemma conv_nonfinite v : is_finite v = false -> is_finite (conv prec emax v) = false.
Proof. destruct v; simpl; intros H; try discriminate; reflexivity. Qed.

Lemma log_not_pos_finite lg q :
  annex_F_log lg -> pos_finite q = false -> is_finite (lg q) = false.
Proof.
  intros [Hz Hn Hmi Hpi Hnan]. destruct q as [s|[|]| |[|] m e]; simpl; intros H;
    try discriminate; rewrite ?Hz, ?Hn, ?Hmi, ?Hpi, ?Hnan; reflexivity.
Qed.

(** The argument of the logarithm is not a positive finite number when
    [beta_2] is at least one or negative. *)
Lemma log_argument_out_of_domain m1 e1 b :
  let one := S754_finite false m1 e1 in
  ge_one one b = true \/ le_zero b = true ->
  (exists s, b = S754_zero s) \/
  pos_finite (SFdiv prec emax b (SFsub prec emax one b)) = false.
Proof.
  intros one [H | H].
  - destruct b as [s|[|]| |[|] m e]; simpl in H; try discriminate.
    + right. reflexivity.
    + right. apply Z.leb_le in H. unfold SFsub, one.
      set (ez := Z.min e1 e) in *.
      set (d := Z.sub _ _). fold ez in d.
      assert (Hd : d <= 0).
      { subst d. unfold scaled, exponent, cond_Zopp in *. lia. }
      destruct (Z.eq_dec d 0) as [-> | Hne].
      * reflexivity.
      * apply SFdiv_pos_by_signed_true, binary_normalize_neg. lia.
  - destruct b as [s|[|]| |[|] m e]; simpl in H; try discriminate.
    + left. eauto.
    + right. reflexivity.
    + right. unfold SFsub, one.
      apply SFdiv_neg_by_signed_false, binary_normalize_pos.
      unfold cond_Zopp. lia.
Qed.

(** [log(b / (1 - b)) / b - 1] is an infinity or a NaN out of the domain. *)
Lemma loss_term_out_of_domain lg m1 e1 b :
  let one := S754_finite false m1 e1 in
  annex_F_log lg ->
  ge_one one b = true \/ le_zero b = true ->
  is_finite
    (SFsub prec emax
       (SFdiv prec emax (lg (SFdiv prec emax b (SFsub prec emax one b))) b) one)
  = false.
Proof.
  intros one Hlg Hb. apply SFsub_nonfinite_l.
  destruct (log_argument_out_of_domain m1 e1 b Hb) as [[s ->] | Hq].
  - apply SFdiv_by_zero.
  - apply SFdiv_nonfinite_l, (log_not_pos_finite lg _ Hlg Hq).
Qed.

End Shapes.

Lemma le_zero_promoted b : le_zero b = true -> le_zero (to_double b) = true \/ to_double b = S754_nan.
Proof.
  rewrite le_zero_cases. destruct b as [s|[|]| |[|] m e]; try discriminate; intros _;
    try (left; reflexivity).
  pose proof (binary_round_signed 53 1024 true m e) as Hs.
  unfold to_double, conv. rewrite le_zero_cases.
  destruct (binary_round 53 1024 true m e) as [s|s| |s m' e']; simpl in Hs; subst; auto.
Qed.

Lemma special_values_annex_F : annex_F special_values_libm.
Proof. split; split; reflexivity. Qed.

Lemma to_float_d_one : to_float d_one = f_one.
Proof. reflexivity. Qed.

Lemma scalar_loss_term_out_of_domain {L : Libm} (b : float) :
  annex_F L -> valid_float b ->
  SFleb f_one b = true \/ SFleb b f_zero = true ->
  is_finite (Scalar.loss_term b) = false.
Proof.
  intros [Hd _] Hv Hb. unfold Scalar.loss_term.
  assert (Hb' : (ge_one d_one (to_double b) = true \/ le_zero (to_double b) = true)
                \/ to_double b = S754_nan).
  { destruct Hb as [Hb | Hb].
    - left. left. apply ge_one_promoted; assumption.
    - destruct (le_zero_promoted b Hb) as [H | H]; [left; right; exact H | right; exact H]. }
  destruct Hb' as [Hb' | ->].
  - apply (loss_term_out_of_domain 53 1024 std_log _ _ _ Hd Hb').
  - unfold d_div, d_sub. rewrite SFdiv_nan_r. reflexivity.
Qed.

Lemma lane_loss_term_out_of_domain {L : Libm} (b : float) :
  annex_F L -> valid_float b ->
  SFleb f_one b = true \/ SFleb b f_zero = true ->
  is_finite (Lane.loss_term b) = false.
Proof.
  intros [_ Hf] Hv Hb. unfold Lane.loss_term. rewrite to_float_d_one.
  apply (loss_term_out_of_domain 24 128 std_logf _ _ _ Hf).
  destruct Hb as [Hb | Hb]; [left | right; exact Hb].
  rewrite <- (ge_one_float b Hv) in Hb. exact Hb.
Qed.

(** What the loop leaves at position [k] of the storage. *)
Lemma for_range_lookup f n : forall it st k,
  for_range f it n st !! k
  = if decide (it <= k < it + n)%nat then f <$> st !! k else st !! k.
Proof.
  induction n as [|n IH]; intros it st k; simpl.
  - destruct (decide _); [lia | reflexivity].
  - rewrite IH. destruct (decide (k = it)) as [-> | Hne].
    + rewrite list_lookup_alter_eq.
      destruct (decide (S it <= it < S it + n)%nat); [lia|].
      destruct (decide (it <= it < it + S n)%nat); [reflexivity | lia].
    + rewrite list_lookup_alter_ne by congruence.
      destruct (decide (S it <= k < S it + n)%nat), (decide (it <= k < it + S n)%nat);
        try reflexivity; lia.
Qed.

(** C8. [energy_loss] is a total function of the record or of the span:
    no input makes it fail, and there is no error result.  With a library
    logarithm as Annex F describes it, a charged record whose [beta_2] is
    at least 1 or at most 0 ends with an energy that is an infinity or a
    NaN: through the overload and the template on one record, and, through
    the template on a span, at the position of each such record of the
    span, whatever the other records of the span hold. *)
Theorem energy_loss_out_of_domain {L : Libm} :
  annex_F L ->
  (forall p : Particle,
     pid_ p <> 0 ->
     SFleb f_one (Scalar.beta_2 p) = true \/ SFleb (Scalar.beta_2 p) f_zero = true ->
     is_finite (e_ (Scalar.energy_loss p)) = false /\
     is_finite (e_ (Scalar.energy_loss_generic p)) = false) /\
  (forall (w : World) (k : nat) (p : Particle),
     in_span (span w) k ->
     stack w !! k = Some p ->
     pid_ p <> 0 ->
     SFleb f_one (Scalar.beta_2 p) = true \/ SFleb (Scalar.beta_2 p) f_zero = true ->
     exists q, stack (Batch.energy_loss w) !! k = Some q /\
               is_finite (e_ q) = false).
Proof.
  intros HL. split.
  - intros p Hpid Hb.
    pose proof (scalar_loss_term_out_of_domain _ HL (beta_2_valid p) Hb) as HT.
    unfold Scalar.energy_loss, Scalar.energy_loss_generic.
    rewrite (charge_charged p Hpid). cbn [e_ set_e d_of_bool].
    assert (is_finite
              (to_float (d_sub (to_double (e_ p))
                               (d_mul d_one (Scalar.loss_term (Scalar.beta_2 p)))))
            = false) as H.
    { apply conv_nonfinite, SFsub_nonfinite_r, SFmul_nonfinite_r, HT. }
    split; exact H.
  - intros w k p Hk Hp Hpid Hb. exists (Lane.energy_loss p). split.
    + rewrite batch_energy_loss_lanes. unfold for_each, in_span in *. cbn [stack].
      rewrite for_range_lookup, Hp.
      destruct (decide _) as [_ | Hn]; [reflexivity | contradiction].
    + unfold Lane.energy_loss. cbn [e_ set_e].
      rewrite (charge_charged p Hpid). cbn [f_of_bool].
      apply SFsub_nonfinite_r, SFmul_nonfinite_r.
      apply (lane_loss_term_out_of_domain _ HL (beta_2_valid p) Hb).
Qed.

(** A charged record with [beta_2 = 4]: alone, and as the second record of
    a span whose first record is charged with [beta_2 = 1/4] and whose
    third is neutral. *)
Lemma energy_loss_out_of_domain_witness :
  (is_finite (e_ (@Scalar.energy_loss special_values_libm p_fast_charged)) = false /\
   is_finite (e_ (@Scalar.energy_loss_generic special_values_libm p_fast_charged)) = false) /\
  exists q,
    stack (@Batch.energy_loss special_values_libm
             (whole [particle 1 1 0 0 2 0 0 0 0; p_fast_charged; p_slow])) !! 1%nat
      = Some q /\
    is_finite (e_ q) = false.
Proof.
  split.
  - apply (proj1 (@energy_loss_out_of_domain special_values_libm special_values_annex_F)).
    + vm_compute. discriminate.
    + left. reflexivity.
  - apply (proj2 (@energy_loss_out_of_domain special_values_libm special_values_annex_F)
             (whole [particle 1 1 0 0 2 0 0 0 0; p_fast_charged; p_slow]) 1%nat
             p_fast_charged).
    + unfold in_span, size, whole. simpl. lia.
    + reflexivity.
    + vm_compute. discriminate.
    + left. reflexivity.
Defined.

(** ** The branch against the mask *)

Section Mask.
Variables prec emax : Z.

Lemma SFmul_zero_finite t :
  is_finite t = true -> exists s, SFmul prec emax (S754_zero false) t = S754_zero s.
Proof. destruct t; simpl; intros H; try discriminate; eauto. Qed.

Lemma SFmul_zero_nonfinite t :
  is_finite t = false -> SFmul prec emax (S754_zero false) t = S754_nan.
Proof. destruct t; simpl; intros H; try discriminate; reflexivity. Qed.

Lemma SFsub_zero_r a s :
  a <> S754_zero true -> SFsub prec emax a (S754_zero s) = a.
Proof. destruct a as [[|]| | |]; intros H; try reflexivity; [congruence | destruct s; reflexivity]. Qed.
End Mask.

Lemma to_double_not_minus_zero v :
  valid_float v -> v <> S754_zero true -> to_double v <> S754_zero true.
Proof.
  destruct v as [s|s| |s m e]; intros Hv H; try exact H; try discriminate.
  rewrite (to_double_valid s m e Hv). discriminate.
Qed.

(** C2 as stated fails.  The neutral all-zero record has [beta_2 = 0/0],
    neither 0 nor 1; the overload leaves its energy at 0 and the template
    stores a NaN, whatever the library logarithm is.  With a logarithm as
    Annex F describes it the same happens at the finite [beta_2 = 4]. *)
Lemma branch_and_mask_diverge :
  (~ exists L : Libm,
       forall p, ~ zero_or_one (Scalar.beta_2 p) ->
                 e_ (Scalar.energy_loss p) = e_ (Scalar.energy_loss_generic p)) /\
  (forall L : Libm, annex_F L ->
     Scalar.beta_2 p_fast = of_Z 24 128 4 /\
     ~ zero_or_one (Scalar.beta_2 p_fast) /\
     e_ (Scalar.energy_loss p_fast) = f_one /\
     e_ (Scalar.energy_loss_generic p_fast) = S754_nan).
Proof.
  split.
  - intros [L H]. specialize (H Particle_zero).
    assert (Hb : ~ zero_or_one (Scalar.beta_2 Particle_zero)).
    { intros [Hb | [Hb | Hb]]; discriminate Hb. }
    specialize (H Hb). revert H.
    unfold Scalar.energy_loss_generic, Scalar.loss_term, set_e. cbn [e_].
    change (Scalar.beta_2 Particle_zero) with S754_nan.
    change (to_double S754_nan) with S754_nan.
    unfold d_div, d_sub, d_mul.
    rewrite SFdiv_nan_r. cbn. discriminate.
  - intros L [HL _].
    split; [reflexivity|].
    split; [intros [Hb | [Hb | Hb]]; discriminate Hb|].
    split; [reflexivity|].
    unfold Scalar.energy_loss_generic, Scalar.loss_term, set_e. cbn [e_].
    change (Scalar.beta_2 p_fast) with (of_Z 24 128 4).
    set (q := d_div _ (d_sub d_one _)).
    assert (Hq : q = S754_finite true 6004799503160661 (-52)) by reflexivity.
    rewrite Hq, (log_neg _ HL). reflexivity.
Qed.

(** C2, as amended.  On a charged record the overload and the template
    compute the same record, whatever [beta_2] is.  On a neutral record
    they agree when the loss term is finite (and the energy is a binary32
    datum other than [-0]); when the loss term is an infinity or a NaN,
    which is the case for [beta_2] 0 or 1 but also for every [beta_2] above
    1 and for a NaN, the overload leaves the energy as it was and the
    template stores a NaN.  The same holds for the mask in [float] that a
    span evaluates. *)
Theorem branch_against_mask {L : Libm} (p : Particle) :
  (pid_ p <> 0 -> Scalar.energy_loss p = Scalar.energy_loss_generic p) /\
  (pid_ p = 0 ->
   is_finite (Scalar.loss_term (Scalar.beta_2 p)) = true ->
   valid_float (e_ p) -> e_ p <> S754_zero true ->
   Scalar.energy_loss_generic p = Scalar.energy_loss p) /\
  (pid_ p = 0 ->
   is_finite (Scalar.loss_term (Scalar.beta_2 p)) = false ->
   e_ (Scalar.energy_loss p) = e_ p /\
   e_ (Scalar.energy_loss_generic p) = S754_nan) /\
  (pid_ p = 0 ->
   is_finite (Lane.loss_term (Scalar.beta_2 p)) = true ->
   e_ p <> S754_zero true ->
   Lane.energy_loss p = Scalar.energy_loss p) /\
  (pid_ p = 0 ->
   is_finite (Lane.loss_term (Scalar.beta_2 p)) = false ->
   e_ (Lane.energy_loss p) = S754_nan).
Proof.
  split; [|split; [|split; [|split]]].
  - intros H. unfold Scalar.energy_loss, Scalar.energy_loss_generic.
    rewrite (charge_charged p H). reflexivity.
  - intros H HT Hv He.
    unfold Scalar.energy_loss, Scalar.energy_loss_generic.
    rewrite (charge_neutral p H). cbn [d_of_bool]. unfold d_zero, d_mul, d_sub.
    destruct (SFmul_zero_finite 53 1024 _ HT) as [s ->].
    rewrite SFsub_zero_r by (apply to_double_not_minus_zero; assumption).
    rewrite (to_float_to_double _ Hv). destruct p; reflexivity.
  - intros H HT. unfold Scalar.energy_loss, Scalar.energy_loss_generic.
    rewrite (charge_neutral p H). cbn [d_of_bool]. unfold d_zero, d_mul, d_sub.
    rewrite (SFmul_zero_nonfinite 53 1024 _ HT), SFsub_nan_r.
    split; reflexivity.
  - intros H HT He. unfold Scalar.energy_loss, Lane.energy_loss.
    rewrite (charge_neutral p H). cbn [f_of_bool]. unfold f_zero, f_mul, f_sub.
    destruct (SFmul_zero_finite 24 128 _ HT) as [s ->].
    rewrite SFsub_zero_r by assumption. destruct p; reflexivity.
  - intros H HT. unfold Lane.energy_loss.
    rewrite (charge_neutral p H). cbn [f_of_bool]. unfold f_zero, f_mul, f_sub.
    rewrite (SFmul_zero_nonfinite 24 128 _ HT), SFsub_nan_r. reflexivity.
Qed.

(** A charged record, a neutral record in the domain ([beta_2 = 1/4]) and a
    neutral record out of it ([beta_2 = 4]). *)
Lemma branch_against_mask_witness :
  @Scalar.energy_loss special_values_libm p_fast_charged
  = @Scalar.energy_loss_generic special_values_libm p_fast_charged /\
  @Scalar.energy_loss_generic special_values_libm p_slow
  = @Scalar.energy_loss special_values_libm p_slow /\
  (e_ (@Scalar.energy_loss special_values_libm p_fast) = e_ p_fast /\
   e_ (@Scalar.energy_loss_generic special_values_libm p_fast) = S754_nan) /\
  @Lane.energy_loss special_values_libm p_slow
  = @Scalar.energy_loss special_values_libm p_slow /\
  e_ (@Lane.energy_loss special_values_libm p_fast) = S754_nan.
Proof.
  split; [|split; [|split; [|split]]].
  - apply (proj1 (@branch_against_mask special_values_libm p_fast_charged)).
    vm_compute. discriminate.
  - apply (proj1 (proj2 (@branch_against_mask special_values_libm p_slow)));
      [reflexivity | reflexivity | reflexivity | vm_compute; discriminate].
  - apply (proj1 (proj2 (proj2 (@branch_against_mask special_values_libm p_fast))));
      reflexivity.
  - apply (proj1 (proj2 (proj2 (proj2 (@branch_against_mask special_values_libm p_slow)))));
      [reflexivity | reflexivity | vm_compute; discriminate].
  - apply (proj2 (proj2 (proj2 (proj2 (@branch_against_mask special_values_libm p_fast)))));
      reflexivity.
Defined.

(** ** The benchmark's own data *)

(** Every record of a fresh stack is a zero record with a tag. *)
Lemma setup_loop_zero st : forall i,
  Forall (fun p => exists tag, p = set_pid tag Particle_zero) st ->
  Forall (fun p => exists tag, p = set_pid tag Particle_zero) (setup_loop i st).
Proof.
  induction st as [|p st IH]; intros i H; [constructor|].
  apply Forall_cons in H as [[tag ->] H]. simpl. constructor; [|apply IH, H].
  eexists. reflexivity.
Qed.

Lemma setup_stack_zero :
  Forall (fun p => exists tag, p = set_pid tag Particle_zero) setup_stack.
Proof.
  apply setup_loop_zero, Forall_replicate. exists 0. reflexivity.
Qed.

Lemma records_Forall (P : Particle -> Prop) sp st :
  Forall P st -> Forall P (records sp st).
Proof. intros H. unfold records. apply Forall_take, Forall_drop, H. Qed.

Lemma lane_energy_loss_fresh {L : Libm} tag :
  e_ (Lane.energy_loss (set_pid tag Particle_zero)) = S754_nan.
Proof.
  unfold Lane.energy_loss, Lane.loss_term, set_e. cbn [e_].
  change (Scalar.beta_2 (set_pid tag Particle_zero)) with S754_nan.
  unfold f_div, f_sub, f_mul.
  rewrite SFdiv_nan_r. cbn [SFsub]. rewrite SFmul_nan_r. reflexivity.
Qed.

Lemma scalar_energy_loss_fresh {L : Libm} tag :
  e_ (Scalar.energy_loss (set_pid tag Particle_zero))
  = if tag =? 0 then f_zero else S754_nan.
Proof.
  unfold Scalar.energy_loss, Scalar.charge. cbn [pid_ set_pid].
  destruct (tag =? 0); [reflexivity|]. cbn [negb].
  unfold Scalar.loss_term, set_e. cbn [e_].
  change (Scalar.beta_2 (set_pid tag Particle_zero)) with S754_nan.
  change (to_double S754_nan) with S754_nan.
  unfold d_div, d_sub, d_mul.
  rewrite SFdiv_nan_r. reflexivity.
Qed.

(** On the stack the benchmarks build, all energies and momenta are zero
    and [beta_2] is 0/0.  One [energy_loss] through the span makes every
    energy of the span a NaN; one [energy_loss] record by record makes the
    charged ones a NaN and leaves the neutral ones at zero. *)
Lemma fresh_stack_energy_loss {L : Libm} (n : nat) :
  Forall (fun q => e_ q = S754_nan)
         (records (span (setup_world n)) (stack (Batch.energy_loss (setup_world n)))) /\
  Forall (fun q => e_ q = if pid_ q =? 0 then f_zero else S754_nan)
         (records (span (setup_world n))
                  (stack (for_each Scalar.energy_loss (setup_world n)))).
Proof.
  pose proof (records_Forall _ (span (setup_world n)) _ setup_stack_zero) as H.
  split.
  - rewrite batch_energy_loss_lanes, records_for_each. apply Forall_fmap.
    eapply Forall_impl; [exact H|]. intros p [tag ->]. apply lane_energy_loss_fresh.
  - rewrite records_for_each. apply Forall_fmap.
    eapply Forall_impl; [exact H|]. intros p [tag ->]. cbn.
    rewrite scalar_energy_loss_fresh.
    destruct (scalar_energy_loss_frame (set_pid tag Particle_zero)) as [-> _].
    reflexivity.
Qed.

(** ** Checks on concrete data *)

Example literals :
  d_tenth = d_div (of_Z 53 1024 1) (of_Z 53 1024 10) /\
  to_float d_tenth = f_div (of_Z 24 128 1) (of_Z 24 128 10) /\
  d_one = of_Z 53 1024 1 /\ f_one = of_Z 24 128 1 /\ to_double f_one = d_one.
Proof. repeat split; reflexivity. Qed.

Example rel_close_examples :
  rel_close (of_Z 24 128 10000000) (of_Z 24 128 10000001) = true /\
  rel_close (of_Z 24 128 100000) (of_Z 24 128 100001) = false /\
  rel_close f_one f_one = true /\
  rel_close f_zero S754_nan = false.
Proof. repeat split; reflexivity. Qed.

Example ge_one_examples :
  ge_one d_one (of_Z 53 1024 4) = true /\
  ge_one d_one d_one = true /\
  ge_one d_one d_tenth = false /\
  ge_one d_one (S754_zero false) = false /\
  le_zero (S754_zero false) = true /\
  le_zero d_tenth = false.
Proof. repeat split; reflexivity. Qed.

(** A span over the middle record of three: the outer records stay. *)
Example move_inside_the_span :
  stack (Batch.move_particle (mkWorld [p_nine; p_nine; p_nine] (mkSpan 1 2)))
  = [p_nine; Lane.move_particle p_nine; p_nine] /\
  stack (for_each Scalar.move_particle (mkWorld [p_nine; p_nine; p_nine] (mkSpan 1 2)))
  = [p_nine; Scalar.move_particle p_nine; p_nine].
Proof. split; reflexivity. Qed.

(** At momentum 9 the [float] product and the rounded [double] product
    differ in the last bit. *)
Example move_nine :
  x_ (Lane.move_particle p_nine) = S754_finite false 15099495 (-24) /\
  x_ (Scalar.move_particle p_nine) = S754_finite false 15099494 (-24).
Proof. split; reflexivity. Qed.

(** * Properties beyond the claims *)

(** ** What a loop over a span reaches *)

(** X1. The loop [for (auto&& p : span) f(p)] rewrites the records of the
    range, each by [f] applied once to what it held, and leaves every
    other position of the storage as it was; positions past the end of the
    storage stay absent. *)
Theorem for_each_lookup (f : Particle -> Particle) (w : World) (k : nat) :
  stack (for_each f w) !! k
  = if decide (in_span (span w) k) then f <$> stack w !! k else stack w !! k.
Proof. unfold for_each, in_span. simpl. apply for_range_lookup. Qed.

Lemma visit_lookup {L : Libm} process w k :
  stack (visit process w) !! k
  = if decide (in_span (span w) k)
    then record_step process <$> stack w !! k else stack w !! k.
Proof.
  rewrite visit_record_step. unfold for_each, in_span. simpl. apply for_range_lookup.
Qed.

(** X2. Whatever list of processes is applied to a span, the records of
    the storage outside the range of the span are not written. *)
Theorem outside_the_span_untouched {L : Libm} (process_list : ProcessList)
    (w : World) (k : nat) :
  ~ in_span (span w) k ->
  stack (run_list process_list w) !! k = stack w !! k.
Proof.
  revert w. induction process_list as [|process rest IH]; intros w Hk; [reflexivity|].
  change (run_list (process :: rest) w) with (run_list rest (visit process w)).
  rewrite IH by (rewrite visit_span; exact Hk).
  rewrite visit_lookup. destruct (decide _); [contradiction | reflexivity].
Qed.

Lemma outside_the_span_untouched_witness :
  stack (@run_list special_values_libm [ContinuousEnergyLoss; MoveParticleNoEigen]
           (mkWorld [p_fast; p_slow; p_nine] (mkSpan 1 2))) !! 2%nat
  = stack (mkWorld [p_fast; p_slow; p_nine] (mkSpan 1 2)) !! 2%nat.
Proof.
  apply (@outside_the_span_untouched special_values_libm).
  unfold in_span, size. simpl. lia.
Defined.

Lemma for_each_empty f w : size (span w) = 0%nat -> for_each f w = w.
Proof. intros H. destruct w as [st sp]. unfold for_each. simpl in *. rewrite H. reflexivity. Qed.

(** X3. On an empty span ([begin_ = end_]) every process and every process
    list leaves the storage and the span exactly as they were. *)
Theorem empty_span_is_untouched {L : Libm} (process_list : ProcessList) (w : World) :
  size (span w) = 0%nat -> run_list process_list w = w.
Proof.
  revert w. induction process_list as [|process rest IH]; intros w H; [reflexivity|].
  change (run_list (process :: rest) w) with (run_list rest (visit process w)).
  rewrite visit_record_step, (for_each_empty _ w H). apply IH, H.
Qed.

Lemma empty_span_is_untouched_witness :
  @run_list special_values_libm [ContinuousEnergyLoss; MoveParticle]
    (mkWorld [p_fast; p_slow] (mkSpan 1 1))
  = mkWorld [p_fast; p_slow] (mkSpan 1 1).
Proof. apply (@empty_span_is_untouched special_values_libm). reflexivity. Defined.

(** ** What no process writes *)

Lemma record_step_tag_momentum {L : Libm} process p :
  same_tag_momentum p (record_step process p).
Proof.
  destruct process; unfold record_step.
  - destruct p; repeat split.
  - destruct (scalar_energy_loss_frame p) as (? & ? & ? & ? & _). repeat split; assumption.
  - destruct p; repeat split.
  - destruct p; repeat split.
Qed.

Lemma same_tag_momentum_trans p q r :
  same_tag_momentum p q -> same_tag_momentum q r -> same_tag_momentum p r.
Proof. unfold same_tag_momentum. intros (?&?&?&?) (?&?&?&?). repeat split; congruence. Qed.

Lemma Forall2_trans_rel {A} (R : A -> A -> Prop) (l1 l2 l3 : list A) :
  (forall a b c, R a b -> R b c -> R a c) ->
  Forall2 R l1 l2 -> Forall2 R l2 l3 -> Forall2 R l1 l3.
Proof.
  intros HR H12. revert l3. induction H12 as [|a b l1 l2 Hab _ IH]; intros l3 H23.
  - inversion H23. constructor.
  - inversion H23; subst. constructor; [eapply HR; eassumption | apply IH; assumption].
Qed.

Lemma run_list_related {L : Libm} (R : Particle -> Particle -> Prop) :
  (forall p, R p p) -> (forall p q r, R p q -> R q r -> R p r) ->
  (forall process p, R p (record_step process p)) ->
  forall process_list w, Forall2 R (stack w) (stack (run_list process_list w)).
Proof.
  intros Hrefl Htrans Hstep process_list.
  induction process_list as [|process rest IH]; intros w.
  - apply Forall_Forall2_diag, Forall_forall. auto.
  - change (run_list (process :: rest) w) with (run_list rest (visit process w)).
    apply (Forall2_trans_rel R _ (stack (visit process w))); [exact Htrans | | apply IH].
    rewrite visit_record_step. apply for_each_frame; auto.
Qed.

(** X4. No process writes the identity tag or the momentum: after any
    process list every record of the storage has the [pid], [px], [py] and
    [pz] it had, and the storage has as many records. *)
Theorem tag_and_momentum_are_kept {L : Libm} (process_list : ProcessList) (w : World) :
  Forall2 same_tag_momentum (stack w) (stack (run_list process_list w)).
Proof.
  apply run_list_related.
  - intros p. repeat split.
  - apply same_tag_momentum_trans.
  - apply record_step_tag_momentum.
Qed.

Lemma record_step_nan_energy {L : Libm} process p :
  nan_energy_kept p (record_step process p).
Proof.
  unfold nan_energy_kept. intros He. destruct process; unfold record_step.
  - unfold Lane.energy_loss, set_e. cbn [e_]. rewrite He. reflexivity.
  - unfold Scalar.energy_loss. destruct (Scalar.charge p); [|exact He].
    unfold set_e. cbn [e_]. rewrite He. reflexivity.
  - destruct p; exact He.
  - destruct p; exact He.
Qed.

(** X5. A NaN energy is never repaired: after any process list, every
    record of the storage whose energy was a NaN still has a NaN energy. *)
Theorem nan_energy_is_absorbing {L : Libm} (process_list : ProcessList) (w : World) :
  Forall2 nan_energy_kept (stack w) (stack (run_list process_list w)).
Proof.
  apply run_list_related.
  - intros p H. exact H.
  - intros p q r Hpq Hqr H. apply Hqr, Hpq, H.
  - apply record_step_nan_energy.
Qed.

(** ** Strided views do not overlap *)

Lemma offset_injective f g : Layout.offset f = Layout.offset g -> f = g.
Proof. destruct f, g; simpl; intros H; try reflexivity; discriminate H. Qed.

Lemma cell_address_injective k f k' g :
  (Layout.stride * k + Layout.offset f = Layout.stride * k' + Layout.offset g)%nat ->
  k = k' /\ f = g.
Proof.
  intros H. pose proof (LayoutFacts.offset_lt_stride f) as Hf.
  pose proof (LayoutFacts.offset_lt_stride g) as Hg.
  rewrite LayoutFacts.stride_is_9 in *.
  assert (k = k') as -> by lia. split; [reflexivity|].
  apply offset_injective. lia.
Qed.

(** X6. The field views of a span do not overlap: coefficient [i] of the
    view of one member and coefficient [j] of the view of another (or the
    same) member are the same cell only when the members and the indices
    are the same; and inside the contract of the span every coefficient of
    every view is a cell of the buffer. *)
Theorem views_do_not_alias (sp : ParticleSpan) (f g : Layout.field) (i j : nat) :
  ((Layout.data (Layout.span_view sp f) + Layout.stride * i)%nat
   = (Layout.data (Layout.span_view sp g) + Layout.stride * j)%nat ->
   f = g /\ i = j) /\
  (forall st, span_ok sp st -> (i < size sp)%nat ->
     (Layout.data (Layout.span_view sp f) + Layout.stride * i
      < length (Layout.buffer st))%nat).
Proof.
  split.
  - rewrite !LayoutFacts.view_address. intros H.
    destruct (cell_address_injective _ _ _ _ H) as [Hk Hf]. split; [exact Hf | lia].
  - intros st [Hb He] Hi. unfold size in Hi.
    rewrite LayoutFacts.view_address, LayoutFacts.buffer_length.
    pose proof (LayoutFacts.offset_lt_stride f). nia.
Qed.

(** The energy of the second record of a span of two lies in the buffer. *)
Lemma views_do_not_alias_witness :
  (Layout.data (Layout.span_view (mkSpan 0 2) Layout.e) + Layout.stride * 1
   < length (Layout.buffer [p_fast; p_slow]))%nat.
Proof.
  apply (proj2 (views_do_not_alias (mkSpan 0 2) Layout.e Layout.px 1 1) [p_fast; p_slow]).
  - unfold span_ok. simpl. lia.
  - unfold size. simpl. lia.
Defined.

(** X7. A store through a view writes one member of one record: the
    accessor of any other member, or of any other record, reads what it
    read before. *)
Theorem view_write_frame (mem : list Layout.scalar) (sp : ParticleSpan)
    (f g : Layout.field) (i k : nat) (v : Layout.scalar) :
  (k, g) <> ((begin_ sp + i)%nat, f) ->
  Layout.member (Layout.coeff_write mem (Layout.span_view sp f) i v) k g
  = Layout.member mem k g.
Proof.
  intros Hne. unfold Layout.member, Layout.coeff_write.
  rewrite LayoutFacts.view_address.
  apply list_lookup_insert_ne. intros H.
  destruct (cell_address_injective _ _ _ _ H) as [Hk Hf]. subst k f.
  apply Hne. reflexivity.
Qed.

Lemma view_write_frame_witness :
  Layout.member
    (Layout.coeff_write (Layout.buffer [p_fast; p_slow]) (Layout.span_view (mkSpan 0 2) Layout.e)
       1 (Layout.F32 f_one)) 1 Layout.px
  = Layout.member (Layout.buffer [p_fast; p_slow]) 1 Layout.px.
Proof.
  apply (view_write_frame (Layout.buffer [p_fast; p_slow]) (mkSpan 0 2) Layout.e Layout.px 1 1
           (Layout.F32 f_one)).
  simpl. intros H. discriminate H.
Defined.

Lemma member_buffer_lookup st k f :
  Layout.member (Layout.buffer st) k f = Layout.get f <$> st !! k.
Proof.
  destruct (st !! k) as [p|] eqn:Hk.
  - apply LayoutFacts.member_buffer, Hk.
  - unfold Layout.member. apply lookup_ge_None.
    apply lookup_ge_None in Hk. rewrite LayoutFacts.buffer_length.
    pose proof (LayoutFacts.offset_lt_stride f). nia.
Qed.

Lemma records_lookup sp (st : list Particle) i :
  (i < size sp)%nat -> records sp st !! i = st !! (begin_ sp + i)%nat.
Proof. intros Hi. unfold records. rewrite lookup_take_lt by exact Hi. apply lookup_drop. Qed.

(** X8. A field view is the column of its member: coefficient [i] of the
    strided view over the buffer is member [f] of record [begin_ + i] of
    the storage (absent when the storage has no such record), which is
    coefficient [i] of the member read record by record over the span. *)
Theorem view_is_the_member_column (st : list Particle) (sp : ParticleSpan)
    (f : Layout.field) (i : nat) :
  Layout.coeff (Layout.buffer st) (Layout.span_view sp f) i
  = Layout.get f <$> st !! (begin_ sp + i)%nat /\
  ((i < size sp)%nat ->
   Layout.coeff (Layout.buffer st) (Layout.span_view sp f) i
   = (Layout.get f <$> records sp st) !! i).
Proof.
  assert (H : Layout.coeff (Layout.buffer st) (Layout.span_view sp f) i
              = Layout.get f <$> st !! (begin_ sp + i)%nat).
  { unfold Layout.coeff. rewrite LayoutFacts.view_address.
    apply member_buffer_lookup. }
  split; [exact H|]. intros Hi.
  rewrite H, list_lookup_fmap, records_lookup by exact Hi. reflexivity.
Qed.

Lemma view_is_the_member_column_witness :
  Layout.coeff (Layout.buffer [p_fast; p_slow; p_nine]) (Layout.span_view (mkSpan 1 3) Layout.px) 1
  = (Layout.get Layout.px <$> records (mkSpan 1 3) [p_fast; p_slow; p_nine]) !! 1%nat.
Proof.
  apply (proj2 (view_is_the_member_column [p_fast; p_slow; p_nine] (mkSpan 1 3) Layout.px 1)).
  unfold size. simpl. lia.
Defined.

(** ** The templates on a span and on one record *)

(** X9. [sqr], [momentum_squared] and [charge] give on a span, coefficient
    by coefficient, exactly the values they give on each record of the
    span: these parts of the generic code are evaluated in [float] in both
    instantiations. *)
Theorem templates_agree_on_span (w : World) :
  Batch.sqr (view e_ w) = (fun p => Scalar.sqr (e_ p)) <$> records (span w) (stack w) /\
  Batch.momentum_squared w = Scalar.momentum_squared <$> records (span w) (stack w) /\
  Batch.charge w = (fun p => f_of_bool (Scalar.charge p)) <$> records (span w) (stack w) /\
  Eigen.div (Batch.momentum_squared w) (Batch.sqr (view e_ w))
  = Scalar.beta_2 <$> records (span w) (stack w).
Proof. repeat split; lanes; reflexivity. Qed.

(** ** The sign of [beta_2] *)

Section Signs.
Variables prec emax : Z.

Lemma SFmul_square_signed v : signed false (SFmul prec emax v v).
Proof.
  destruct v as [s|s| |s m e]; simpl; try (destruct s; reflexivity); [exact I|].
  replace (xorb s s) with false by (destruct s; reflexivity).
  apply binary_round_aux_signed.
Qed.

Lemma SFadd_signed_false a b :
  signed false a -> signed false b -> signed false (SFadd prec emax a b).
Proof.
  destruct a as [sa|sa| |sa ma ea], b as [sb|sb| |sb mb eb]; simpl;
    intros Ha Hb; subst; try reflexivity; try exact I.
  apply binary_normalize_pos. simpl. lia.
Qed.

Lemma SFdiv_signed_false a b :
  signed false a -> signed false b -> signed false (SFdiv prec emax a b).
Proof.
  destruct a as [sa|sa| |sa ma ea], b as [sb|sb| |sb mb eb]; simpl;
    intros Ha Hb; subst; try reflexivity; try exact I.
  destruct (SFdiv_core_binary _ _ _ _ _ _) as [[mz ez] lz].
  apply (binary_round_aux_signed prec emax false).
Qed.
End Signs.

(** X10. [beta_2] is never negative: whatever the record holds, the
    quotient of the squared momentum by the squared energy is a NaN or
    carries the sign plus, so the comparison [beta_2 <= 0] holds only when
    [beta_2] is the zero [+0]. *)
Theorem beta_2_is_not_negative (p : Particle) :
  signed false (Scalar.beta_2 p) /\
  (SFleb (Scalar.beta_2 p) f_zero = true -> Scalar.beta_2 p = S754_zero false).
Proof.
  assert (H : signed false (Scalar.beta_2 p)).
  { unfold Scalar.beta_2, Scalar.momentum_squared, Scalar.sqr, f_div, f_add, f_mul.
    apply SFdiv_signed_false; [|apply SFmul_square_signed].
    repeat apply SFadd_signed_false; apply SFmul_square_signed. }
  split; [exact H|].
  destruct (Scalar.beta_2 p) as [s|s| |s m e]; simpl in H; subst; simpl;
    intros Hle; try discriminate Hle; reflexivity.
Qed.

(** A charged record at rest with energy 1. *)
Lemma beta_2_is_not_negative_witness :
  Scalar.beta_2 (particle 1 0 0 0 1 0 0 0 0) = S754_zero false.
Proof. apply (proj2 (beta_2_is_not_negative (particle 1 0 0 0 1 0 0 0 0))). reflexivity. Defined.

(** ** The population rule, counted *)

Lemma setup_loop_tags st : forall i,
  pid_ <$> setup_loop i st
  = (fun k => Z.rem (i + Z.of_nat k + 1) 3 - 1) <$> seq 0 (length st).
Proof.
  induction st as [|p st IH]; intros i; [reflexivity|].
  simpl length. rewrite <- cons_seq, <- fmap_S_seq. simpl.
  f_equal; [do 2 f_equal; lia|].
  rewrite IH, <- list_fmap_compose. apply list_fmap_ext. intros _ k _. simpl.
  do 2 f_equal. lia.
Qed.

Lemma setup_stack_n_tags n : pid_ <$> setup_stack_n n = tag_at <$> seq 0 n.
Proof.
  unfold setup_stack_n. rewrite setup_loop_tags, length_replicate.
  apply list_fmap_ext. intros _ k _. unfold tag_at. do 2 f_equal.
Qed.

Lemma first_tags_seq n : (n <= stack_size)%nat -> first_tags n = tag_at <$> seq 0 n.
Proof.
  intros Hn. unfold first_tags, setup_stack.
  rewrite fmap_take, setup_stack_n_tags, <- fmap_take, take_seq.
  f_equal. f_equal. lia.
Qed.

Lemma tag_at_block m :
  tag_at (3 * m) = 0 /\ tag_at (S (3 * m)) = 1 /\ tag_at (S (S (3 * m))) = -1.
Proof.
  rewrite !tag_at_cycle.
  replace ((3 * m) mod 3)%nat with 0%nat
    by (rewrite Nat.mul_comm; symmetry; apply Nat.Div0.mod_mul).
  replace (S (3 * m) mod 3)%nat with 1%nat.
  2:{ replace (S (3 * m)) with (1 + m * 3)%nat by lia. rewrite Nat.Div0.mod_add. reflexivity. }
  replace (S (S (3 * m)) mod 3)%nat with 2%nat.
  2:{ replace (S (S (3 * m))) with (2 + m * 3)%nat by lia. rewrite Nat.Div0.mod_add. reflexivity. }
  repeat split.
Qed.

Lemma neutral_count_block m :
  neutral_count (tag_at <$> seq 0 (3 * m)) = m.
Proof.
  unfold neutral_count. induction m as [|m IH]; [reflexivity|].
  replace (3 * S m)%nat with (3 * m + 3)%nat by lia.
  rewrite seq_app, fmap_app, count_occ_app, IH.
  change (tag_at <$> seq (0 + 3 * m) 3)
    with [tag_at (3 * m); tag_at (S (3 * m)); tag_at (S (S (3 * m)))].
  destruct (tag_at_block m) as (-> & -> & ->).
  change (count_occ Z.eq_dec [0; 1; -1] 0) with 1%nat. lia.
Qed.

(** X11. [setup_stack] returns 100000 records whose [float] fields are all
    zero, and it makes one record in three neutral: among the first [3 m]
    records exactly [m] have the tag 0. *)
Theorem setup_stack_population (m : nat) :
  (3 * m <= stack_size)%nat ->
  length setup_stack = stack_size /\
  Forall (fun p => exists tag, p = set_pid tag Particle_zero) setup_stack /\
  neutral_count (first_tags (3 * m)) = m.
Proof.
  intros Hm. split; [|split].
  - unfold setup_stack, setup_stack_n. rewrite setup_loop_length. apply length_replicate.
  - apply setup_stack_zero.
  - rewrite first_tags_seq by exact Hm. apply neutral_count_block.
Qed.

Lemma setup_stack_population_witness :
  length setup_stack = stack_size /\
  Forall (fun p => exists tag, p = set_pid tag Particle_zero) setup_stack /\
  neutral_count (first_tags (3 * 4)) = 4%nat.
Proof. apply (setup_stack_population 4). unfold stack_size. lia. Defined.

(** ** The benchmark bodies *)

Lemma for_each_iter g k : forall w,
  Nat.iter k (for_each g) w = for_each (Nat.iter k g) w.
Proof.
  induction k as [|k IH]; intros w.
  - simpl. apply world_eq; [|reflexivity].
    rewrite for_each_stack. simpl. rewrite list_fmap_id. apply stack_split.
  - simpl. rewrite IH, for_each_compose. apply for_each_ext. reflexivity.
Qed.

Lemma process_span_lanes {L : Libm} w :
  process_span w = for_each (fun p => Lane.move_particle (Lane.energy_loss p)) w.
Proof.
  unfold process_span.
  rewrite batch_energy_loss_lanes, batch_move_particle_lanes. apply for_each_compose.
Qed.

Lemma iter_ext {A} (f g : A -> A) k :
  (forall a, f a = g a) -> forall a, Nat.iter k f a = Nat.iter k g a.
Proof. intros H. induction k as [|k IH]; intros a; simpl; [reflexivity|]. rewrite IH. apply H. Qed.

(** X12. Dispatching through the variant list changes nothing, and
    successive loops over a span fuse: the list of the two span processes
    is [process_span], the list of the two per-record loops is the single
    loop of [process_one] (and of [process_span_no_eigen]), and [k]
    iterations of a loop over the span are one loop applying the body [k]
    times to each record. *)
Theorem benchmark_bodies_fuse {L : Libm} (w : World) :
  variant_process_span w = process_span w /\
  variant_process_span_no_eigen w = process_one w /\
  process_span_no_eigen w = process_one w /\
  (forall k,
     Nat.iter k process_one w
     = for_each (Nat.iter k (fun p => Scalar.move_particle (Scalar.energy_loss p))) w) /\
  (forall k,
     Nat.iter k process_span w
     = for_each (Nat.iter k (fun p => Lane.move_particle (Lane.energy_loss p))) w).
Proof.
  split; [apply variant_process_span_direct|].
  split; [apply variant_process_span_no_eigen_direct|].
  split; [reflexivity|].
  split; intros k.
  - apply for_each_iter.
  - rewrite <- for_each_iter. apply iter_ext. intros a. apply process_span_lanes.
Qed.

(** X13. [variant_process_one] does not process one record at a time: its
    inner call passes the whole span, so one benchmark iteration updates
    every record of the span [size()] times by the span forms of
    [energy_loss] and [move_particle], where [process_one] updates it
    once. *)
Theorem variant_process_one_repeats {L : Libm} (w : World) :
  variant_process_one w
  = for_each (Nat.iter (size (span w))
                (fun p => Lane.move_particle (Lane.energy_loss p))) w.
Proof.
  unfold variant_process_one. rewrite <- for_each_iter.
  apply iter_ext. intros a.
  change (run_list [ContinuousEnergyLoss; MoveParticle] a) with (process_span a).
  apply process_span_lanes.
Qed.

(** *** On the stack the benchmarks build *)

Lemma move_keeps_tag_energy p :
  pid_ (Scalar.move_particle p) = pid_ p /\ e_ (Scalar.move_particle p) = e_ p /\
  pid_ (Lane.move_particle p) = pid_ p /\ e_ (Lane.move_particle p) = e_ p.
Proof. destruct p; repeat split. Qed.

Lemma lane_step_nan {L : Libm} p :
  e_ p = S754_nan -> e_ (Lane.move_particle (Lane.energy_loss p)) = S754_nan.
Proof.
  intros He. destruct (move_keeps_tag_energy (Lane.energy_loss p)) as (_ & _ & _ & ->).
  apply (record_step_nan_energy ContinuousEnergyLoss p He).
Qed.

Lemma lane_iter_nan {L : Libm} k : forall p,
  e_ p = S754_nan ->
  e_ (Nat.iter k (fun p => Lane.move_particle (Lane.energy_loss p)) p) = S754_nan.
Proof.
  induction k as [|k IH]; intros p He; simpl; [exact He|].
  apply lane_step_nan, IH, He.
Qed.

Lemma nat_iter_succ_r {A} (f : A -> A) k a : Nat.iter (S k) f a = Nat.iter k f (f a).
Proof. induction k as [|k IH]; [reflexivity|]. simpl in *. rewrite IH. reflexivity. Qed.

Lemma scalar_step_fresh {L : Libm} k : forall p,
  (pid_ p = 0 /\ e_ p = f_zero) \/ (pid_ p <> 0 /\ e_ p = S754_nan) ->
  let q := Nat.iter k (fun p => Scalar.move_particle (Scalar.energy_loss p)) p in
  pid_ q = pid_ p /\ e_ q = e_ p.
Proof.
  induction k as [|k IH]; intros p Hp; [split; reflexivity|].
  destruct (IH p Hp) as [Hpid He]. cbv zeta in *.
  set (g := fun p => Scalar.move_particle (Scalar.energy_loss p)) in *.
  change (Nat.iter (S k) g p) with (g (Nat.iter k g p)).
  set (q := Nat.iter k g p) in *. unfold g.
  destruct (move_keeps_tag_energy (Scalar.energy_loss q)) as (-> & -> & _).
  destruct (scalar_energy_loss_frame q) as [-> _]. split; [exact Hpid|].
  rewrite <- He. destruct Hp as [[Hz Hez] | [Hnz Hen]].
  - unfold Scalar.energy_loss. rewrite (charge_neutral q) by congruence. reflexivity.
  - rewrite He, Hen.
    apply (record_step_nan_energy ContinuousEnergyLossNoEigen q). congruence.
Qed.

Lemma setup_stack_length : length setup_stack = stack_size.
Proof. unfold setup_stack, setup_stack_n. rewrite setup_loop_length. apply length_replicate. Qed.

Lemma records_length sp st :
  (begin_ sp <= end_ sp <= length st)%nat -> length (records sp st) = size sp.
Proof. intros H. unfold records, size. rewrite length_take, length_drop. lia. Qed.

Lemma iter_for_each_length f k w :
  length (stack (Nat.iter k (for_each f) w)) = length (stack w).
Proof. rewrite for_each_iter. apply for_each_length. Qed.

(** X14. On the stack [setup_stack] builds, where every energy and
    momentum is zero, [beta_2] is 0/0 whatever the library logarithm is.
    For a span over the first [n] records, after one or more iterations of
    [process_span] each of the [n] energies is a NaN, and after one or more
    iterations of [process_one] the charged records of the span have a NaN
    energy and the neutral ones the energy 0 they started with. *)
Theorem benchmarks_on_the_fresh_stack {L : Libm} (n k : nat) :
  (n <= stack_size)%nat ->
  let after_span := records (mkSpan 0 n) (stack (Nat.iter (S k) process_span (setup_world n))) in
  let after_one := records (mkSpan 0 n) (stack (Nat.iter (S k) process_one (setup_world n))) in
  length after_span = n /\
  Forall (fun q => e_ q = S754_nan) after_span /\
  length after_one = n /\
  Forall (fun q => e_ q = if pid_ q =? 0 then f_zero else S754_nan) after_one.
Proof.
  intros Hn after_span after_one. subst after_span after_one.
  pose proof (records_Forall _ (mkSpan 0 n) _ setup_stack_zero) as H.
  assert (Hone : Nat.iter (S k) process_one (setup_world n)
                 = for_each (Nat.iter (S k)
                     (fun p => Scalar.move_particle (Scalar.energy_loss p))) (setup_world n))
    by apply for_each_iter.
  assert (Hspan : Nat.iter (S k) process_span (setup_world n)
                  = for_each (Nat.iter (S k)
                      (fun p => Lane.move_particle (Lane.energy_loss p))) (setup_world n)).
  { rewrite <- for_each_iter. apply iter_ext. intros a. apply process_span_lanes. }
  assert (Hlen : forall f, length (records (mkSpan 0 n) (stack (for_each f (setup_world n)))) = n).
  { intros f. rewrite records_length; [unfold size; cbn [begin_ end_]; lia|].
    rewrite for_each_length. change (stack (setup_world n)) with setup_stack.
    rewrite setup_stack_length. cbn [begin_ end_]. lia. }
  rewrite Hspan, Hone.
  split; [apply Hlen|]. split; [|split; [apply Hlen|]].
  - change (mkSpan 0 n) with (span (setup_world n)).
    rewrite records_for_each. apply Forall_fmap.
    eapply Forall_impl; [exact H|]. intros p [tag ->]. unfold compose.
    rewrite nat_iter_succ_r. apply lane_iter_nan.
    destruct (move_keeps_tag_energy (Lane.energy_loss (set_pid tag Particle_zero)))
      as (_ & _ & _ & ->).
    apply lane_energy_loss_fresh.
  - change (mkSpan 0 n) with (span (setup_world n)).
    rewrite records_for_each. apply Forall_fmap.
    eapply Forall_impl; [exact H|]. intros p [tag ->]. unfold compose.
    rewrite nat_iter_succ_r.
    set (p1 := Scalar.move_particle (Scalar.energy_loss (set_pid tag Particle_zero))).
    assert (Hp1 : pid_ p1 = tag /\ e_ p1 = if tag =? 0 then f_zero else S754_nan).
    { unfold p1.
      destruct (move_keeps_tag_energy (Scalar.energy_loss (set_pid tag Particle_zero)))
        as (-> & -> & _).
      destruct (scalar_energy_loss_frame (set_pid tag Particle_zero)) as [-> _].
      split; [reflexivity | apply scalar_energy_loss_fresh]. }
    destruct Hp1 as [Hpid He].
    destruct (scalar_step_fresh k p1) as [-> ->].
    + destruct (Z.eqb_spec tag 0) as [Hz | Hnz]; [left | right]; split; congruence.
    + rewrite Hpid. exact He.
Qed.

Lemma benchmarks_on_the_fresh_stack_witness :
  let after_span :=
    records (mkSpan 0 8)
      (stack (Nat.iter 2 (@process_span special_values_libm) (setup_world 8))) in
  let after_one :=
    records (mkSpan 0 8)
      (stack (Nat.iter 2 (@process_one special_values_libm) (setup_world 8))) in
  length after_span = 8%nat /\
  Forall (fun q => e_ q = S754_nan) after_span /\
  length after_one = 8%nat /\
  Forall (fun q => e_ q = if pid_ q =? 0 then f_zero else S754_nan) after_one.
Proof.
  apply (@benchmarks_on_the_fresh_stack special_values_libm 8 1).
  unfold stack_size. lia.
Defined.

(** ** The first demo *)

Lemma simple_for_range_lookup f n : forall it st k,
  Simple.for_range f it n st !! k
  = if decide (it <= k < it + n)%nat then f <$> st !! k else st !! k.
Proof.
  induction n as [|n IH]; intros it st k; simpl.
  - destruct (decide _); [lia | reflexivity].
  - rewrite IH. destruct (decide (k = it)) as [-> | Hne].
    + rewrite list_lookup_alter_eq.
      destruct (decide (S it <= it < S it + n)%nat); [lia|].
      destruct (decide (it <= it < it + S n)%nat); [reflexivity | lia].
    + rewrite list_lookup_alter_ne by congruence.
      destruct (decide (S it <= k < S it + n)%nat), (decide (it <= k < it + S n)%nat);
        try reflexivity; lia.
Qed.

Lemma simple_records_whole v : Simple.records (Simple.make_span v) = v.
Proof.
  unfold Simple.records, Simple.make_span, size. cbn [Simple.span Simple.stack begin_ end_].
  rewrite drop_0. apply take_ge. lia.
Qed.

Lemma simple_for_each_whole f v :
  Simple.for_each f (Simple.make_span v) = Simple.make_span (f <$> v).
Proof.
  unfold Simple.for_each, Simple.make_span, size.
  cbn [Simple.span Simple.stack begin_ end_]. rewrite length_fmap. f_equal.
  apply list_eq. intros k. rewrite simple_for_range_lookup, list_lookup_fmap.
  destruct (decide _) as [_ | Hk]; [reflexivity|].
  rewrite (lookup_ge_None_2 v k) by lia. reflexivity.
Qed.

Lemma simple_span_whole {L : Libm} v :
  Simple.do_energy_loss_span (Simple.make_span v)
  = Simple.make_span (Simple.do_energy_loss_lane <$> v).
Proof.
  unfold Simple.do_energy_loss_span, Simple.assign_e, Simple.momentum_squared_span,
    Simple.view.
  rewrite simple_records_whole.
  unfold Simple.make_span, size. cbn [Simple.span Simple.stack begin_ end_].
  rewrite length_fmap. f_equal.
  rewrite take_0, (drop_ge v) by lia. rewrite app_nil_r. cbn [app].
  lanes. rewrite zip_with_fmap_l, zip_with_diag. reflexivity.
Qed.

Lemma simple_iter_whole (m : Simple.World -> Simple.World) (G : nat -> Simple.Particle -> Simple.Particle) :
  (forall v, m (Simple.make_span v) = Simple.make_span (G (length v) <$> v)) ->
  forall k v,
    Nat.iter k m (Simple.make_span v)
    = Simple.make_span (Nat.iter k (G (length v)) <$> v).
Proof.
  intros Hm k v. induction k as [|k IH].
  - simpl. rewrite list_fmap_id. reflexivity.
  - change (Nat.iter (S k) m (Simple.make_span v))
      with (m (Nat.iter k m (Simple.make_span v))).
    rewrite IH, Hm, length_fmap, <- list_fmap_compose. reflexivity.
Qed.

Lemma simple_visit_whole {L : Libm} v :
  Simple.visit Simple.ContinuousEnergyLoss (Simple.make_span v)
  = Simple.make_span (Simple.do_energy_loss_lane <$> v).
Proof. apply simple_span_whole. Qed.

Lemma simple_variant_one_whole {L : Libm} v :
  Simple.variant_process_one (Simple.make_span v)
  = Simple.make_span (Nat.iter (length v) Simple.do_energy_loss_lane <$> v).
Proof.
  unfold Simple.variant_process_one. cbv zeta.
  replace (size (Simple.span (Simple.make_span v))) with (length v)
    by (unfold size; cbn [Simple.span Simple.make_span begin_ end_]; lia).
  apply (simple_iter_whole _ (fun _ => Simple.do_energy_loss_lane)).
  intros v'. apply simple_visit_whole.
Qed.

(** X15. In the first demo a span covers its whole vector, so each method
    is a map over the vector: [process_one] applies the [double] reading
    of [do_energy_loss] to every record, [process_span] and
    [variant_process_span] the [float] reading, and [variant_process_one]
    applies the [float] reading [size()] times to every record, since its
    loop over the span passes the whole span each time.  [DummyProcess]
    changes nothing. *)
Theorem first_demo_methods {L : Libm} (v : list Simple.Particle) :
  Simple.process_one (Simple.make_span v)
    = Simple.make_span (Simple.do_energy_loss <$> v) /\
  Simple.process_span (Simple.make_span v)
    = Simple.make_span (Simple.do_energy_loss_lane <$> v) /\
  Simple.variant_process_span (Simple.make_span v)
    = Simple.process_span (Simple.make_span v) /\
  Simple.variant_process_one (Simple.make_span v)
    = Simple.make_span (Nat.iter (length v) Simple.do_energy_loss_lane <$> v) /\
  Simple.visit Simple.DummyProcess (Simple.make_span v) = Simple.make_span v.
Proof.
  split; [apply simple_for_each_whole|].
  split; [apply simple_span_whole|].
  split; [reflexivity|].
  split; [apply simple_variant_one_whole | reflexivity].
Qed.

Lemma simple_beta_2_valid p : valid_float (Simple.beta_2 p).
Proof. apply (SFdiv_valid 24 128). lia. Qed.

(** X16. [do_energy_loss] has no charge to switch it off: with a library
    logarithm as Annex F describes it, every record whose [beta_2] is at
    least 1 or at most 0 ends with an energy that is an infinity or a NaN,
    in the [double] reading of one record and in the [float] reading of a
    span; its momentum is not written. *)
Theorem first_demo_out_of_domain {L : Libm} (p : Simple.Particle) :
  annex_F L ->
  SFleb f_one (Simple.beta_2 p) = true \/ SFleb (Simple.beta_2 p) f_zero = true ->
  is_finite (Simple.e_ (Simple.do_energy_loss p)) = false /\
  is_finite (Simple.e_ (Simple.do_energy_loss_lane p)) = false /\
  simple_momentum (Simple.do_energy_loss p) = simple_momentum p /\
  simple_momentum (Simple.do_energy_loss_lane p) = simple_momentum p.
Proof.
  intros HL Hb. split; [|split; [|split; reflexivity]].
  - unfold Simple.do_energy_loss, Simple.set_e. cbn [Simple.e_].
    apply conv_nonfinite, SFsub_nonfinite_r.
    apply (scalar_loss_term_out_of_domain _ HL (simple_beta_2_valid p) Hb).
  - unfold Simple.do_energy_loss_lane, Simple.set_e. cbn [Simple.e_].
    apply SFsub_nonfinite_r.
    apply (lane_loss_term_out_of_domain _ HL (simple_beta_2_valid p) Hb).
Qed.

(** A record at rest with energy 1: [beta_2] is 0. *)
Lemma first_demo_out_of_domain_witness :
  let p := Simple.mkParticle f_zero f_zero f_zero f_one in
  is_finite (Simple.e_ (@Simple.do_energy_loss special_values_libm p)) = false /\
  is_finite (Simple.e_ (@Simple.do_energy_loss_lane special_values_libm p)) = false /\
  simple_momentum (@Simple.do_energy_loss special_values_libm p) = simple_momentum p /\
  simple_momentum (@Simple.do_energy_loss_lane special_values_libm p) = simple_momentum p.
Proof.
  apply (@first_demo_out_of_domain special_values_libm).
  - exact special_values_annex_F.
  - right. reflexivity.
Defined.

(** *** On the vector the benchmarks build *)

Lemma simple_step_at_rest {L : Libm} e :
  e = f_zero \/ e = S754_nan ->
  Simple.do_energy_loss (Simple.mkParticle f_zero f_zero f_zero e) = simple_nan /\
  Simple.do_energy_loss_lane (Simple.mkParticle f_zero f_zero f_zero e) = simple_nan.
Proof.
  intros He.
  assert (Hb : Simple.beta_2 (Simple.mkParticle f_zero f_zero f_zero e) = S754_nan)
    by (destruct He as [-> | ->]; reflexivity).
  split.
  - unfold Simple.do_energy_loss, Simple.set_e, simple_nan.
    cbn [Simple.px_ Simple.py_ Simple.pz_ Simple.e_].
    change (f_div _ _) with (Simple.beta_2 (Simple.mkParticle f_zero f_zero f_zero e)).
    rewrite Hb. unfold Scalar.loss_term. cbv zeta.
    change (to_double S754_nan) with S754_nan.
    unfold d_div, d_sub. rewrite (SFdiv_nan_r 53 1024).
    change (SFsub 53 1024 S754_nan d_one) with S754_nan.
    rewrite (SFsub_nan_r 53 1024). reflexivity.
  - unfold Simple.do_energy_loss_lane, Simple.set_e, simple_nan.
    cbn [Simple.px_ Simple.py_ Simple.pz_ Simple.e_].
    rewrite Hb. unfold Lane.loss_term, f_div, f_sub.
    rewrite (SFdiv_nan_r 24 128).
    change (SFsub 24 128 S754_nan (to_float d_one)) with S754_nan.
    rewrite (SFsub_nan_r 24 128). reflexivity.
Qed.

Lemma simple_iter_at_rest (g : Simple.Particle -> Simple.Particle) :
  g Simple.Particle_zero = simple_nan -> g simple_nan = simple_nan ->
  forall k, Nat.iter (S k) g Simple.Particle_zero = simple_nan.
Proof.
  intros H0 Hn k. rewrite nat_iter_succ_r, H0.
  induction k as [|k IH]; [reflexivity|]. simpl. rewrite IH. exact Hn.
Qed.

(** X17. The four benchmarks of the first demo run on a value-initialised
    vector, where [beta_2] is 0/0: whatever the library logarithm is, after
    one or more iterations of any of the four methods the vector holds its
    [n] records with the momentum zero and the energy a NaN. *)
Theorem first_demo_benchmarks {L : Libm} (n k : nat) :
  let result := Simple.make_span (replicate n simple_nan) in
  Nat.iter (S k) Simple.process_one (Simple.setup n) = result /\
  Nat.iter (S k) Simple.process_span (Simple.setup n) = result /\
  Nat.iter (S k) Simple.variant_process_one (Simple.setup n) = result /\
  Nat.iter (S k) Simple.variant_process_span (Simple.setup n) = result.
Proof.
  intros result. subst result. unfold Simple.setup.
  destruct (simple_step_at_rest f_zero (or_introl eq_refl)) as [Hd0 Hl0].
  destruct (simple_step_at_rest S754_nan (or_intror eq_refl)) as [Hdn Hln].
  fold Simple.Particle_zero in Hd0, Hl0. fold simple_nan in Hdn, Hln.
  assert (Hspan : Nat.iter (S k) Simple.process_span
                    (Simple.make_span (replicate n Simple.Particle_zero))
                  = Simple.make_span (replicate n simple_nan)).
  { rewrite (simple_iter_whole _ (fun _ => Simple.do_energy_loss_lane))
      by (intros v; apply simple_span_whole).
    rewrite fmap_replicate, (simple_iter_at_rest _ Hl0 Hln). reflexivity. }
  split; [|split; [exact Hspan | split; [|exact Hspan]]].
  - rewrite (simple_iter_whole _ (fun _ => Simple.do_energy_loss))
      by (intros v; apply simple_for_each_whole).
    rewrite fmap_replicate, (simple_iter_at_rest _ Hd0 Hdn). reflexivity.
  - rewrite (simple_iter_whole _ (fun len => Nat.iter len Simple.do_energy_loss_lane))
      by (intros v; apply simple_variant_one_whole).
    rewrite fmap_replicate, length_replicate. destruct n as [|n]; [reflexivity|].
    rewrite (simple_iter_at_rest (Nat.iter (S n) Simple.do_energy_loss_lane)).
    + reflexivity.
    + apply (simple_iter_at_rest _ Hl0 Hln).
    + clear -Hln. induction n as [|n IH]; [exact Hln|].
      change (Nat.iter (S (S n)) Simple.do_energy_loss_lane simple_nan)
        with (Simple.do_energy_loss_lane (Nat.iter (S n) Simple.do_energy_loss_lane simple_nan)).
      rewrite IH. exact Hln.
Qed.
